(** * Coverage report script of Necromancer's Shell

    A shallow embedding of [scripts/coverage_report.py]: the extraction of one
    coverage record from the text printed by [gcov] ([parse_gcov_output]) and
    the aggregation and report of [main].

    Modelling conventions.
    - Python [str] values are [string]s (characters with code below 256; in
      that range the regex class [\d] is exactly the ten ASCII digits).
    - Python [int] is [Z]; [int] of a decimal text raises [ValueError] on
      more than [max_str_digits] digits, the default limit of CPython 3.11.
    - Python [float] is IEEE 754 binary64, modelled exactly by [Float64.float]:
      every operation is the exact rational result rounded to nearest, ties to
      even.
    - Exceptions are values of [exn], the exceptions that [except Exception]
      catches; code that can raise returns a [result].
    - What [os.walk] finds and what [subprocess.run] gives are the inputs of
      a run ([world]).
    - [print] appends a structured [line] to the output, one constructor for
      each format string, and does not fail: the integers it formats are sums
      of counts below [2^1024], which stay under the digit limit of the
      conversion to text for any list of records that fits in memory. *)

From Stdlib Require Import ZArith Lia Bool List Ascii String.
From Stdlib Require Import Floats.SpecFloat.
From stdpp Require Import gmap strings list fin_maps sorting.

Local Open Scope Z_scope.

(** ** Exceptions *)

Inductive exn : Type :=
| ZeroDivisionError
| OverflowError
| ValueError
| OtherException (name : string).

Inductive result (A : Type) : Type :=
| Ok (a : A)
| Raise (e : exn).
Arguments Ok {A} a.
Arguments Raise {A} e.

#[global] Instance result_ret : MRet result := fun _ a => Ok a.
#[global] Instance result_bind : MBind result := fun _ _ f m =>
  match m with
  | Ok a => f a
  | Raise e => Raise e
  end.

(** ** Binary64 floating point

    A finite double is an integer multiple of [2^-1074] with at most 53
    significant bits and magnitude below [2^1024]. [Fin n] is the double of
    value [n * 2^-1074]. The two zeros are identified: no operation the script
    performs (multiplication, division by 100, comparison, [int]) tells them
    apart. *)

Module Float64.

Definition prec : Z := 53.
(** Number of [2^-1074] units in 1.0. *)
Definition unit : Z := 2 ^ 1074.
(** First magnitude, in units, that is out of range: [2^1024]. *)
Definition huge : Z := 2 ^ 2098.

Inductive float : Type :=
| Fin (n : Z)
| Inf (neg : bool)
| NaN.

(** Nearest integer to [a / b], ties to even ([0 <= a], [0 < b]). *)
Definition rne (a b : Z) : Z :=
  let q := a / b in
  let r := a mod b in
  if 2 * r <? b then q
  else if b <? 2 * r then q + 1
  else if Z.even q then q else q + 1.

(** Number of low bits that a magnitude of [q] units cannot keep. *)
Definition drop_bits (q : Z) : Z := Z.max 0 (Z.log2 q + 1 - prec).

(** The multiple of [2^k] nearest to [a / b], for [k] the number of bits that
    [a / b] cannot keep. *)
Definition rounded (a b : Z) : Z :=
  let k := drop_bits (a / b) in
  rne a (b * 2 ^ k) * 2 ^ k.

(** The double nearest to the non-negative rational [a / b] units. *)
Definition round_mag (a b : Z) : float :=
  let n := rounded a b in
  if n <? huge then Fin n else Inf false.

Definition fneg (x : float) : float :=
  match x with
  | Fin n => Fin (- n)
  | Inf s => Inf (negb s)
  | NaN => NaN
  end.

(** The double nearest to the rational [a / b] units, [0 < b]. *)
Definition round_units (a b : Z) : float :=
  if a <? 0 then fneg (round_mag (- a) b) else round_mag a b.

(** Conversion of a Python [int]; an out-of-range integer raises. *)
Definition of_int (i : Z) : result float :=
  match round_units (i * unit) 1 with
  | Fin n => Ok (Fin n)
  | _ => Raise OverflowError
  end.

(** [float(s)] for [s] the decimal numeral [num / 10^scale]; never raises,
    an out-of-range numeral gives infinity. *)
Definition of_decimal (num : Z) (scale : nat) : float :=
  round_units (num * unit) (10 ^ Z.of_nat scale).

Definition fmul (x y : float) : float :=
  match x, y with
  | NaN, _ | _, NaN => NaN
  | Fin a, Fin b => round_units (a * b) unit
  | Inf s, Fin b | Fin b, Inf s =>
      if b =? 0 then NaN else Inf (xorb s (b <? 0))
  | Inf s, Inf t => Inf (xorb s t)
  end.

(** Python's float division: a zero divisor raises. *)
Definition fdiv (x y : float) : result float :=
  match x, y with
  | _, Fin 0 => Raise ZeroDivisionError
  | NaN, _ | _, NaN => Ok NaN
  | Fin a, Fin b =>
      Ok (if b <? 0 then round_units (- a * unit) (- b)
          else round_units (a * unit) b)
  | Inf s, Fin b => Ok (Inf (xorb s (b <? 0)))
  | Fin _, Inf _ => Ok (Fin 0)
  | Inf _, Inf _ => Ok NaN
  end.

(** [x < y]; false as soon as one side is NaN. *)
Definition flt (x y : float) : bool :=
  match x, y with
  | NaN, _ | _, NaN => false
  | Fin a, Fin b => a <? b
  | Fin _, Inf s => negb s
  | Inf s, Fin _ => s
  | Inf s, Inf t => s && negb t
  end.

Definition fle (x y : float) : bool :=
  match x, y with
  | NaN, _ | _, NaN => false
  | _, _ => negb (flt y x)
  end.

Definition feq (x y : float) : bool :=
  match x, y with
  | NaN, _ | _, NaN => false
  | _, _ => negb (flt x y) && negb (flt y x)
  end.

(** [int(x)]: truncation toward zero. *)
Definition to_int (x : float) : result Z :=
  match x with
  | Fin n => Ok (Z.quot n unit)
  | Inf _ => Raise OverflowError
  | NaN => Raise ValueError
  end.

(** Python's [a / b] on two ints: the correctly rounded quotient. *)
Definition int_truediv (a b : Z) : result float :=
  if b =? 0 then Raise ZeroDivisionError
  else
    match (if b <? 0 then round_units (- a * unit) (- b)
           else round_units (a * unit) b) with
    | Fin n => Ok (Fin n)
    | _ => Raise OverflowError
    end.

(** The doubles of integer value. *)
Definition of_small (i : Z) : float := Fin (i * unit).

(** Comparison with the encoding of the Standard Library's specification of
    IEEE 754 arithmetic, for non-negative values. *)
Definition to_spec (x : float) : spec_float :=
  match x with
  | NaN => S754_nan
  | Inf s => S754_infinity s
  | Fin n =>
      let k := drop_bits n in
      match n / 2 ^ k with
      | Zpos m => S754_finite false m (k - 1074)
      | _ => S754_zero false
      end
  end.

End Float64.

Import Float64.

(** ** Text and regular expressions

    The two patterns of [parse_gcov_output] use literal characters and greedy
    one-or-more repetitions of a character class. [match_here] is a
    backtracking matcher for that fragment, anchored at the start of the text:
    a repetition first tries to go on, and gives way to the rest of the
    pattern only when going on does not lead to a match. It returns the text
    taken by each repetition, in pattern order. *)

Inductive item : Type :=
| Lit (c : ascii)
| Plus (cls : ascii -> bool).

Fixpoint lits (s : string) : list item :=
  match s with
  | EmptyString => []
  | String c s' => Lit c :: lits s'
  end.

Fixpoint match_here (p : list item) : string -> option (list string) :=
  match p with
  | [] => fun _ => Some []
  | Lit c :: p' => fun s =>
      match s with
      | String d s' => if Ascii.eqb c d then match_here p' s' else None
      | EmptyString => None
      end
  | Plus cls :: p' =>
      fix rep (s : string) : option (list string) :=
        match s with
        | String d s' =>
            if cls d then
              match rep s' with
              | Some (g :: gs) => Some (String d g :: gs)
              | _ =>
                  match match_here p' s' with
                  | Some gs => Some (String d EmptyString :: gs)
                  | None => None
                  end
              end
            else None
        | EmptyString => None
        end
  end.

(** [re.search]: the match at the leftmost position that has one. *)
Fixpoint re_search (p : list item) (s : string) : option (list string) :=
  match match_here p s with
  | Some gs => Some gs
  | None =>
      match s with
      | EmptyString => None
      | String _ s' => re_search p s'
      end
  end.

Definition is_digit (c : ascii) : bool :=
  let n := Z.of_nat (nat_of_ascii c) in (48 <=? n) && (n <=? 57).

Definition not_quote (c : ascii) : bool := negb (Ascii.eqb c "'").

(** [File '([^']+)'] *)
Definition file_re : list item :=
  lits "File '" ++ [Plus not_quote] ++ lits "'".

(** [Lines executed:(\d+\.\d+)% of (\d+)] *)
Definition coverage_re : list item :=
  lits "Lines executed:" ++ [Plus is_digit] ++ lits "." ++ [Plus is_digit]
  ++ lits "% of " ++ [Plus is_digit].

(** The value of a string of ASCII digits. *)
Definition digit_value (c : ascii) : Z := Z.of_nat (nat_of_ascii c) - 48.

Fixpoint int_acc (acc : Z) (s : string) : Z :=
  match s with
  | EmptyString => acc
  | String c s' => int_acc (10 * acc + digit_value c) s'
  end.

Definition int_of_digits (s : string) : Z := int_acc 0 s.

(** [sys.int_info.default_max_str_digits]: the longest decimal text that
    [int] converts; leading zeros count. *)
Definition max_str_digits : Z := 4300.

(** [int(s)] on a string of ASCII digits: a [ValueError] beyond the limit on
    the number of digits. *)
Definition int_of_text (s : string) : result Z :=
  if max_str_digits <? Z.of_nat (String.length s) then Raise ValueError
  else Ok (int_of_digits s).

(** [float(s)] on the text [ip.fp] of two digit strings. *)
Definition float_of_digits (ip fp : string) : float :=
  of_decimal (int_of_digits (ip +:+ fp)) (String.length fp).

(** [sub in s] *)
Fixpoint contains (sub s : string) : bool :=
  String.prefix sub s ||
  match s with
  | EmptyString => false
  | String _ s' => contains sub s'
  end.

(** [s.endswith(suf)] *)
Fixpoint endswith (suf s : string) : bool :=
  String.eqb s suf ||
  match s with
  | EmptyString => false
  | String _ s' => endswith suf s'
  end.

(** [os.path.join(a, b)] *)
Definition path_join (a b : string) : string :=
  if String.prefix "/" b then b
  else if String.eqb a "" || endswith "/" a then a +:+ b
  else a +:+ "/" +:+ b.

(** [os.path.basename(p)]: what follows the last slash. *)
Fixpoint basename (p : string) : string :=
  match p with
  | EmptyString => EmptyString
  | String c p' =>
      if contains "/" p' then basename p'
      else if Ascii.eqb c "/" then p' else p
  end.

(** ** Extraction of one record *)

Record coverage : Type := {
  file : string;
  percentage : float;
  covered : Z;
  total : Z
}.

(** What [subprocess.run] hands back when it does not raise. *)
Record completed : Type := {
  stdout : string;
  stderr : string
}.

(** The [int] literal [100] as the double it converts to. *)
Definition hundred : float := of_small 100.

(** Lines 27 to 37: the record built from the captured groups. [int] refuses
    a total of too many digits, the product [total_lines * percentage]
    converts the int to a float first, and [int(...)] raises on an infinity
    or a NaN. *)
Definition record_of_groups (filename ip fp tot : string) : result coverage :=
  let percentage := float_of_digits ip fp in
  total_lines ← int_of_text tot;
  t ← of_int total_lines;
  q ← fdiv (fmul t percentage) hundred;
  covered_lines ← to_int q;
  Ok {| file := filename; percentage := percentage;
        covered := covered_lines; total := total_lines |}.

(** The body of the [try] block, falling through to [return None]. *)
Definition parse_body (run : result completed) : result (option coverage) :=
  r ← run;
  let output := stdout r +:+ stderr r in
  let file_match := re_search file_re output in
  let coverage_match := re_search coverage_re output in
  match file_match, coverage_match with
  | Some [filename], Some [ip; fp; tot] =>
      d ← record_of_groups filename ip fp tot;
      Ok (Some d)
  | _, _ => Ok None
  end.

(** [try: ... except Exception: pass] followed by [return None]. *)
Definition parse_gcov_output (run : result completed)
  : result (option coverage) :=
  match parse_body run with
  | Ok r => Ok r
  | Raise _ => Ok None
  end.

(** ** Python's stable sort

    [sorted(xs, key=key)] and [list.sort] compare keys with [<] only and keep
    the input order of elements whose keys are not ordered by it. With
    [reverse=True] the result is that of reversing the list, sorting it, and
    reversing it again, so equal keys still keep their input order. *)

Section Sorted.
Context {A K : Type} (lt : K -> K -> bool) (key : A -> K).

Fixpoint insert_sorted (x : A) (l : list A) : list A :=
  match l with
  | [] => [x]
  | y :: l' =>
      if lt (key y) (key x) then y :: insert_sorted x l' else x :: y :: l'
  end.

Fixpoint sort_stable (l : list A) : list A :=
  match l with
  | [] => []
  | x :: l' => insert_sorted x (sort_stable l')
  end.

Definition sorted (reverse : bool) (l : list A) : list A :=
  if reverse then rev (sort_stable (rev l)) else sort_stable l.
End Sorted.

(** ** Aggregation *)

(** The value of [(c / t * 100) if t > 0 else 0]: a float or the int 0. *)
Inductive pynum : Type :=
| PyInt (i : Z)
| PyFloat (x : float).

Definition percent_of (covered_lines total_lines : Z) : result pynum :=
  if 0 <? total_lines then
    q ← int_truediv covered_lines total_lines;
    Ok (PyFloat (fmul q hundred))
  else Ok (PyInt 0).

Definition sum_by (f : coverage -> Z) (coverage_data : list coverage) : Z :=
  foldr (fun d acc => f d + acc) 0 coverage_data.

Definition overall_percentage (coverage_data : list coverage) : result pynum :=
  percent_of (sum_by covered coverage_data) (sum_by total coverage_data).

(** The [if]/[elif] chain of the category loop. *)
Definition category_of (file_path : string) : string :=
  if contains "/core/" file_path then "Core Systems"
  else if contains "/commands/" file_path then "Command System"
  else if contains "/game/souls/" file_path
          || contains "/game/minions/" file_path then "Game Entities"
  else if contains "/game/combat/" file_path then "Combat System"
  else if contains "/game/narrative/" file_path then "Narrative Systems"
  else if contains "/game/world/" file_path then "World Systems"
  else if contains "/game/progression/" file_path then "Progression"
  else if contains "/terminal/" file_path then "Terminal/UI"
  else if contains "/utils/" file_path then "Utilities"
  else if contains "/data/" file_path then "Data Loaders"
  else "Other".

(** One bucket of the [categories] dictionary. *)
Record stats : Type := {
  st_covered : Z;
  st_total : Z
}.

(** The default of the [defaultdict]. *)
Definition no_stats : stats := {| st_covered := 0; st_total := 0 |}.

(** One iteration of the category loop. *)
Definition add_record (categories : gmap string stats) (data : coverage)
  : gmap string stats :=
  let category := category_of (file data) in
  let s := default no_stats (categories !! category) in
  <[category := {| st_covered := st_covered s + covered data;
                   st_total := st_total s + total data |}]> categories.

Definition group_by_category (coverage_data : list coverage)
  : gmap string stats :=
  fold_left add_record coverage_data ∅.

Definition category_percentage (s : stats) : result pynum :=
  percent_of (st_covered s) (st_total s).

(** [sorted(categories.keys())] *)
Definition sorted_keys (categories : gmap string stats) : list string :=
  sorted String.ltb id false (map fst (map_to_list categories)).

(** ** The report *)

Definition top_files (coverage_data : list coverage) : list coverage :=
  take 10 (sorted flt percentage true coverage_data).

Definition fifty : float := of_small 50.

Definition low_coverage (coverage_data : list coverage) : list coverage :=
  filter (fun d => flt (percentage d) fifty = true) coverage_data.

Inductive line : Type :=
| Rule (c : ascii)
| Text (s : string)
| Blank
| Found (n : nat)
| Overall (p : pynum)
| CoveredOf (c t : Z)
| CategoryRow (category : string) (p : pynum) (c t : Z)
| FileRow (filename : string) (p : float) (c t : Z)
| LowHeader (n : nat).

(** Output so far, and how the computation ended. *)
Definition io (A : Type) : Type := (list line * result A)%type.

#[global] Instance io_ret : MRet io := fun _ a => ([], Ok a).
#[global] Instance io_bind : MBind io := fun _ _ f m =>
  match m with
  | (o, Ok a) => let '(o', r) := f a in (o ++ o', r)
  | (o, Raise e) => (o, Raise e)
  end.

Definition print (l : line) : io () := ([l], Ok tt).
Definition lift {A} (r : result A) : io A := ([], r).

Fixpoint for_each {A} (l : list A) (body : A -> io ()) : io () :=
  match l with
  | [] => mret tt
  | x :: l' => body x ≫= fun _ => for_each l' body
  end.

Definition file_row (data : coverage) : line :=
  FileRow (basename (file data)) (percentage data) (covered data) (total data).

(** What the script finds on disk and what running [gcov] gives. *)
Record world : Type := {
  walk : list (string * list string);
  gcov : string -> result completed
}.

Definition find_gcda (w : world) : list string :=
  flat_map (fun '(root, files) =>
              map (path_join root)
                  (filter (fun f => endswith ".gcda" f = true) files))
           (walk w).

(** The loop that fills [coverage_data]. *)
Fixpoint parse_all (run : string -> result completed) (gcda_files : list string)
  : result (list coverage) :=
  match gcda_files with
  | [] => Ok []
  | gcda_file :: rest =>
      data ← parse_gcov_output (run gcda_file);
      more ← parse_all run rest;
      Ok (match data with Some d => d :: more | None => more end)
  end.

(** [c * n] for a one-character string [c]. *)
Fixpoint repeat_char (c : ascii) (n : nat) : string :=
  match n with
  | O => EmptyString
  | S n' => String c (repeat_char c n')
  end.

(** [s.ljust(n)], the padding of the [:<n] format. *)
Definition ljust (n : nat) (s : string) : string :=
  s +:+ repeat_char " " (n - String.length s).

(** The loop over [sorted(categories.keys())]. *)
Definition report_categories (categories : gmap string stats) : io () :=
  for_each (sorted_keys categories) (fun category =>
    let s := default no_stats (categories !! category) in
    p ← lift (category_percentage s);
    print (CategoryRow category p (st_covered s) (st_total s))).

(** Top 10 best covered files. *)
Definition report_top_files (coverage_data : list coverage) : io () :=
  print (Text "Top 10 Best Covered Files:") ;;
  print (Rule "-") ;;
  for_each (top_files coverage_data) (fun data => print (file_row data)).

(** Files needing improvement (<50%). *)
Definition report_low_coverage (coverage_data : list coverage) : io () :=
  let low_coverage := low_coverage coverage_data in
  match low_coverage with
  | _ :: _ =>
      let low_coverage := sorted flt percentage false low_coverage in
      print (LowHeader (length low_coverage)) ;;
      print (Rule "-") ;;
      for_each (take 15 low_coverage) (fun data => print (file_row data))
  | [] => print (Text "All files have >50% coverage!")
  end.

Definition main (w : world) : io () :=
  print (Rule "=") ;;
  print (Text "Test Coverage Report - Necromancer's Shell") ;;
  print (Rule "=") ;;
  print Blank ;;
  let gcda_files := find_gcda w in
  match gcda_files with
  | [] => print (Text "No coverage data found. Run 'make coverage' first.")
  | _ =>
    print (Found (length gcda_files)) ;;
    print Blank ;;
    coverage_data ← lift (parse_all (gcov w) gcda_files);
    match coverage_data with
    | [] => print (Text "Could not parse coverage data")
    | _ =>
      let total_lines := sum_by total coverage_data in
      let covered_lines := sum_by covered coverage_data in
      overall ← lift (percent_of covered_lines total_lines);
      print (Overall overall) ;;
      print (CoveredOf covered_lines total_lines) ;;
      print Blank ;;
      let categories := group_by_category coverage_data in
      print (Text "Coverage by Category:") ;;
      print (Rule "-") ;;
      print (Text (ljust 30 "Category" +:+ " " +:+ ljust 15 "Coverage"
                   +:+ " " +:+ ljust 20 "Lines")) ;;
      print (Rule "-") ;;
      report_categories categories ;;
      print Blank ;;
      report_top_files coverage_data ;;
      print Blank ;;
      report_low_coverage coverage_data ;;
      print Blank ;;
      print (Rule "=") ;;
      print (Text "For HTML reports, install lcov: sudo pacman -S lcov") ;;
      print (Text "Then run: make coverage") ;;
      print (Rule "=")
    end
  end.

(** The exit status of the script: an exception that leaves [main] ends the
    interpreter with status 1. *)
Definition exit_status (r : io ()) : Z :=
  match r.2 with
  | Ok _ => 0
  | Raise _ => 1
  end.

(** ** Vocabulary of sorting *)

(** Two keys that [<] does not order: equal, for a total order. *)
Definition tied {A K : Type} (lt : K -> K -> bool) (key : A -> K)
    (k : K) (x : A) : Prop :=
  lt k (key x) = false /\ lt (key x) k = false.

#[global] Instance tied_dec {A K : Type} (lt : K -> K -> bool) (key : A -> K)
    (k : K) (x : A) : Decision (tied lt key k x).
Proof. unfold tied. apply _. Defined.

(** No later element of the list is below an earlier one. *)
Definition ascending {A K : Type} (lt : K -> K -> bool) (key : A -> K)
    (l : list A) : Prop :=
  StronglySorted (fun a b => lt (key b) (key a) = false) l.

(** No later element of the list is above an earlier one. *)
Definition descending {A K : Type} (lt : K -> K -> bool) (key : A -> K)
    (l : list A) : Prop :=
  StronglySorted (fun a b => lt (key a) (key b) = false) l.

Definition not_nan (x : float) : Prop := x <> NaN.

(** ** Vocabulary of the specification

    The two required lines of the coverage tool's output, stated on the text
    itself and without reference to the matcher. *)

Fixpoint all_chars (cls : ascii -> bool) (s : string) : bool :=
  match s with
  | EmptyString => true
  | String c s' => cls c && all_chars cls s'
  end.

(** A non-empty run of characters of the class. *)
Definition run_of (cls : ascii -> bool) (s : string) : Prop :=
  s <> EmptyString /\ all_chars cls s = true.

(** The text does not go on with a character of the class. *)
Definition stops (cls : ascii -> bool) (s : string) : Prop :=
  match s with
  | EmptyString => True
  | String c _ => cls c = false
  end.

(** [s] starts with [File '<path>']. *)
Definition file_line_at (path s : string) : Prop :=
  exists post,
    s = "File '" +:+ path +:+ "'" +:+ post /\ run_of not_quote path.

(** [s] starts with [Lines executed:<ip>.<fp>% of <tot>]. *)
Definition coverage_line_at (ip fp tot s : string) : Prop :=
  exists post,
    s = "Lines executed:" +:+ ip +:+ "." +:+ fp +:+ "% of " +:+ tot +:+ post
    /\ run_of is_digit ip /\ run_of is_digit fp /\ run_of is_digit tot.

Definition has_file_line (output : string) : Prop :=
  exists pre path suf, output = pre +:+ suf /\ file_line_at path suf.

Definition has_coverage_line (output : string) : Prop :=
  exists pre ip fp tot suf,
    output = pre +:+ suf /\ coverage_line_at ip fp tot suf.

(** The pattern matches at [suf] with groups [gs] and at no position of the
    text before it. *)
Definition first_match (p : list item) (pre suf : string) (gs : list string)
  : Prop :=
  match_here p suf = Some gs /\
  forall pre1 pre2 : string,
    pre = pre1 +:+ pre2 -> pre2 <> EmptyString ->
    match_here p (pre2 +:+ suf) = None.

(** [floor(total * percentage / 100)] evaluated in double arithmetic, defined
    when the total converts to a double and the product and the quotient are
    finite. *)
Definition floor_percent (total_lines : Z) (percentage : float) : option Z :=
  match of_int total_lines with
  | Ok t =>
      match fmul t percentage with
      | Fin x =>
          match fdiv (Fin x) hundred with
          | Ok (Fin y) => Some (y / unit)
          | _ => None
          end
      | _ => None
      end
  | Raise _ => None
  end.

(** A float that is a finite non-negative value or plus infinity. *)
Definition nonneg_or_inf (x : float) : Prop :=
  match x with
  | Fin n => 0 <= n < huge
  | Inf s => s = false
  | NaN => False
  end.

(** ** Vocabulary of the aggregation *)

(** The ordered rules of the specification: path fragments and the label of
    the paths that contain one of them. *)
Definition category_rules : list (list string * string) :=
  [ (["/core/"], "Core Systems");
    (["/commands/"], "Command System");
    (["/game/souls/"; "/game/minions/"], "Game Entities");
    (["/game/combat/"], "Combat System");
    (["/game/narrative/"], "Narrative Systems");
    (["/game/world/"], "World Systems");
    (["/game/progression/"], "Progression");
    (["/terminal/"], "Terminal/UI");
    (["/utils/"], "Utilities");
    (["/data/"], "Data Loaders") ].

Definition category_labels : list string :=
  map snd category_rules ++ ["Other"].

(** The label of the first rule with a fragment in the path. *)
Fixpoint first_rule (rules : list (list string * string)) (file_path : string)
  : string :=
  match rules with
  | [] => "Other"
  | (fragments, label) :: rest =>
      if existsb (fun fragment => contains fragment file_path) fragments
      then label
      else first_rule rest file_path
  end.

(** The sum of one field over all the buckets. *)
Definition sum_stats (f : stats -> Z) (categories : gmap string stats) : Z :=
  map_fold (fun _ s acc => f s + acc) 0 categories.

(** What every record of the script satisfies: counts that are not negative,
    a covered count within [2^1018] times the total, a percentage that is a
    number. *)
Definition record_ok (d : coverage) : Prop :=
  0 <= total d /\ 0 <= covered d <= 2 ^ 1018 * total d
  /\ not_nan (percentage d).

Definition stats_ok (s : stats) : Prop :=
  0 <= st_covered s <= 2 ^ 1018 * st_total s.

(** The lines that open every run. *)
Definition banner : list line :=
  [Rule "="; Text "Test Coverage Report - Necromancer's Shell"; Rule "=";
   Blank].

(** The lines that close a full report. *)
Definition closing : list line :=
  [Blank; Rule "=";
   Text "For HTML reports, install lcov: sudo pacman -S lcov";
   Text "Then run: make coverage"; Rule "="].

(** A run that ends without an exception. *)
Definition returns {A} (m : io A) : Prop := exists o a, m = (o, Ok a).

(** ** Sample outputs of the coverage tool *)

Definition nl : string := String (ascii_of_nat 10) EmptyString.

Definition gcov_text (path percent total_lines : string) : string :=
  "File '" +:+ path +:+ "'" +:+ nl
  +:+ "Lines executed:" +:+ percent +:+ "% of " +:+ total_lines +:+ nl.

Definition on_stdout (text : string) : completed :=
  {| stdout := text; stderr := "" |}.

(** 75.00% of 40 lines. *)
Definition engine_output : completed :=
  on_stdout (gcov_text "src/core/engine.c" "75.00" "40").

(** A total of [10^309] lines, beyond the range of doubles. *)
Definition huge_total_output : completed :=
  on_stdout (gcov_text "a.c" "0.00" (String "1" (repeat_char "0" 309))).

(** The total 40 written with 4400 leading zeros. *)
Definition padded_forty : string := repeat_char "0" 4400 +:+ "40".

(** 50.00% of 40 lines, the total written with more digits than [int]
    accepts. *)
Definition long_total_output : completed :=
  on_stdout (gcov_text "a.c" "50.00" padded_forty).

(** 100.0% of [2^53 + 3] lines. *)
Definition rounded_total_output : completed :=
  on_stdout (gcov_text "a.c" "100.0" "9007199254740995").

(** 100.5% of one line. *)
Definition above_hundred_output : completed :=
  on_stdout (gcov_text "a.c" "100.5" "1").

(** 200.0% of 10 lines. *)
Definition double_output : completed :=
  on_stdout (gcov_text "a.c" "200.0" "10").

(** Only the coverage line. *)
Definition no_file_output : completed :=
  on_stdout ("Lines executed:75.00% of 40" +:+ nl).


(** ** Sample records *)

Definition engine_record : coverage :=
  {| file := "src/core/engine.c"; percentage := of_small 75;
     covered := 30; total := 40 |}.

Definition combat_record : coverage :=
  {| file := "src/game/combat/damage.c"; percentage := of_small 10;
     covered := 2; total := 20 |}.

Definition logger_record : coverage :=
  {| file := "src/utils/logger.c"; percentage := of_small 75;
     covered := 9; total := 12 |}.

(** Two records at 75% around one at 10%. *)
Definition sample_data : list coverage :=
  [engine_record; combat_record; logger_record].

(** ** A sample of three artifacts *)

Definition sample_files : list string :=
  ["build/engine.gcda"; "build/damage.gcda"; "build/logger.gcda"].

(** The coverage tool on the three artifacts of the sample. *)
Definition sample_run (gcda_file : string) : result completed :=
  if String.eqb gcda_file "build/engine.gcda" then
    Ok (on_stdout (gcov_text "src/core/engine.c" "75.00" "40"))
  else if String.eqb gcda_file "build/damage.gcda" then
    Ok (on_stdout (gcov_text "src/game/combat/damage.c" "10.00" "20"))
  else if String.eqb gcda_file "build/logger.gcda" then
    Ok (on_stdout (gcov_text "src/utils/logger.c" "75.00" "12"))
  else Raise (OtherException "FileNotFoundError").

(** ** Sample runs *)

(** One artifact, whose report is the engine's. *)
Definition engine_world : world :=
  {| walk := [("build", ["engine.gcda"; "engine.o"])];
     gcov := fun _ => Ok engine_output |}.

(** No artifact at all. *)
Definition empty_world : world :=
  {| walk := [("build", ["engine.o"])];
     gcov := fun _ => Raise (OtherException "FileNotFoundError") |}.

(** One artifact and no coverage tool. *)
Definition broken_world : world :=
  {| walk := [("build", ["engine.gcda"])];
     gcov := fun _ => Raise (OtherException "FileNotFoundError") |}.

(** ** Vocabulary of the further properties *)

(** The record that the loop of [main] keeps for one artifact, if any. *)
Definition parsed_record (run : string -> result completed)
    (gcda_file : string) : option coverage :=
  match parse_gcov_output (run gcda_file) with
  | Ok data => data
  | Raise _ => None
  end.

(** The records that the category loop puts in one bucket. *)
Definition in_category (category : string) (coverage_data : list coverage)
  : list coverage :=
  filter (fun d => category_of (file d) = category) coverage_data.

(** A magnitude, in units of [2^-1074], that is a double: the bits that a
    double of its size cannot keep are zero. *)
Definition representable (v : Z) : Prop :=
  0 <= v /\ v mod 2 ^ drop_bits v = 0.

(** The row that the category table prints for a category. *)
Definition category_row (categories : gmap string stats) (category : string)
    (p : pynum) : line :=
  let s := default no_stats (categories !! category) in
  CategoryRow category p (st_covered s) (st_total s).

(** A percentage between 0 and 100: the int 0 or a double in that range. *)
Definition within_percent (p : pynum) : Prop :=
  match p with
  | PyInt i => i = 0
  | PyFloat x => fle (Fin 0) x = true /\ fle x hundred = true
  end.

(** 100.00% of 40 lines. *)
Definition full_output : completed :=
  on_stdout (gcov_text "src/core/engine.c" "100.00" "40").

(** A build tree with artifacts in two directories. *)
Definition tree_world : world :=
  {| walk := [("build", ["engine.gcda"; "engine.o"]);
              ("build/game", ["damage.gcda"; "notes.gcda.txt"])];
     gcov := sample_run |}.

(** The engine's artifact, and a coverage tool that knows no other file. *)
Definition engine_only_world : world :=
  {| walk := [("build", ["engine.gcda"; "engine.o"])];
     gcov := fun gcda_file =>
       if String.eqb gcda_file "build/engine.gcda" then Ok engine_output
       else Raise (OtherException "FileNotFoundError") |}.


(** * Properties *)

(** ** Rounding *)

Section Rounding.

Lemma rne_bounds a b :
  0 <= a -> 0 < b ->
  a / b <= rne a b <= a / b + 1 /\ 2 * b * rne a b <= 2 * a + b.
Proof.
  intros Ha Hb. unfold rne.
  pose proof (Z.div_mod a b ltac:(lia)) as Hdm.
  pose proof (Z.mod_pos_bound a b Hb) as Hr.
  destruct (2 * (a mod b) <? b) eqn:E1; [apply Z.ltb_lt in E1; nia|].
  apply Z.ltb_ge in E1.
  destruct (b <? 2 * (a mod b)) eqn:E2; [apply Z.ltb_lt in E2; nia|].
  apply Z.ltb_ge in E2.
  destruct (Z.even (a / b)); nia.
Qed.

Lemma rne_nonneg a b : 0 <= a -> 0 < b -> 0 <= rne a b.
Proof.
  intros Ha Hb. pose proof (rne_bounds a b Ha Hb) as [[H _] _].
  pose proof (Z.div_pos a b Ha Hb). lia.
Qed.

Lemma drop_bits_nonneg q : 0 <= drop_bits q.
Proof. unfold drop_bits. lia. Qed.

(** When bits are dropped, the quotient has exactly [53 + k] bits. *)
Lemma drop_bits_pos q :
  0 < drop_bits q ->
  2 ^ (drop_bits q + 52) <= q < 2 ^ (drop_bits q + 53).
Proof.
  unfold drop_bits, prec. intros Hk.
  assert (Hq : 0 < q).
  { destruct (Z_lt_le_dec 0 q) as [|Hle]; [assumption|].
    rewrite (Z.log2_nonpos q Hle) in Hk. lia. }
  pose proof (Z.log2_spec q Hq) as Hs.
  replace (Z.max 0 (Z.log2 q + 1 - 53) + 52) with (Z.log2 q) by lia.
  replace (Z.max 0 (Z.log2 q + 1 - 53) + 53) with (Z.succ (Z.log2 q)) by lia.
  exact Hs.
Qed.

Lemma round_mag_rounded a b :
  round_mag a b = if rounded a b <? huge then Fin (rounded a b) else Inf false.
Proof. reflexivity. Qed.

Lemma rounded_nonneg a b : 0 <= a -> 0 < b -> 0 <= rounded a b.
Proof.
  intros Ha Hb. unfold rounded.
  pose proof (drop_bits_nonneg (a / b)) as Hk.
  assert (0 < 2 ^ drop_bits (a / b)) by (apply Z.pow_pos_nonneg; lia).
  pose proof (rne_nonneg a (b * 2 ^ drop_bits (a / b)) Ha ltac:(nia)). nia.
Qed.

(** Rounding adds at most half a unit or a relative [2^-53]. *)
Lemma rounded_upper a b :
  0 <= a -> 0 < b ->
  2 ^ 53 * b * rounded a b <= a * (2 ^ 53 + 1) + 2 ^ 52 * b.
Proof.
  intros Ha Hb. unfold rounded.
  set (k := drop_bits (a / b)).
  assert (Hk : 0 <= k) by apply drop_bits_nonneg.
  assert (Hp : 0 < 2 ^ k) by (apply Z.pow_pos_nonneg; lia).
  pose proof (rne_bounds a (b * 2 ^ k) Ha ltac:(nia)) as [_ Hu].
  set (m := rne a (b * 2 ^ k)) in *.
  assert (H53 : 2 ^ 53 = 2 * 2 ^ 52) by reflexivity.
  destruct (Z.eq_dec k 0) as [Hk0|Hk0].
  - rewrite Hk0 in *. change (2 ^ 0) with 1 in *. nia.
  - pose proof (drop_bits_pos (a / b) ltac:(fold k; lia)) as [Hlo _].
    fold k in Hlo. rewrite Z.pow_add_r in Hlo by lia.
    pose proof (Z.mul_div_le a b Hb) as Hq.
    assert (Hs : 2 ^ 52 * (b * 2 ^ k) <= a) by nia.
    nia.
Qed.

(** A value below [2^j] rounds to at most [2^j]. *)
Lemma rounded_le_pow2 a b j :
  0 <= a -> 0 < b -> 53 <= j -> a < b * 2 ^ j -> rounded a b <= 2 ^ j.
Proof.
  intros Ha Hb Hj Hlt. unfold rounded.
  set (k := drop_bits (a / b)).
  assert (Hk : 0 <= k) by apply drop_bits_nonneg.
  assert (Hp : 0 < 2 ^ k) by (apply Z.pow_pos_nonneg; lia).
  pose proof (rne_bounds a (b * 2 ^ k) Ha ltac:(nia)) as [[_ Hm] _].
  assert (Hq : a / b < 2 ^ j) by (apply Z.div_lt_upper_bound; lia).
  rewrite <- Z.div_div in Hm by lia.
  destruct (Z.eq_dec k 0) as [Hk0|Hk0].
  - rewrite Hk0 in *. change (2 ^ 0) with 1 in *.
    rewrite Z.div_1_r in Hm. lia.
  - pose proof (drop_bits_pos (a / b) ltac:(fold k; lia)) as [Hlo Hhi].
    fold k in Hlo, Hhi.
    assert (Hkj : k + 53 <= j).
    { destruct (Z_lt_le_dec j (k + 53)) as [Hc|]; [|lia].
      assert (2 ^ j <= 2 ^ (k + 52)) by (apply Z.pow_le_mono_r; lia). lia. }
    assert (Hd : a / b / 2 ^ k < 2 ^ 53).
    { apply Z.div_lt_upper_bound; [lia|].
      rewrite <- Z.pow_add_r by lia. exact Hhi. }
    assert (Hle : 2 ^ (k + 53) <= 2 ^ j) by (apply Z.pow_le_mono_r; lia).
    rewrite Z.pow_add_r in Hle by lia. nia.
Qed.

Lemma round_mag_finite a b j :
  0 <= a -> 0 < b -> 53 <= j <= 2097 -> a < b * 2 ^ j ->
  round_mag a b = Fin (rounded a b) /\ 0 <= rounded a b <= 2 ^ j.
Proof.
  intros Ha Hb Hj Hlt.
  pose proof (rounded_le_pow2 a b j Ha Hb ltac:(lia) Hlt) as Hu.
  pose proof (rounded_nonneg a b Ha Hb) as Hn.
  assert (Hh : 2 ^ j < huge).
  { unfold huge. apply Z.pow_lt_mono_r; lia. }
  rewrite round_mag_rounded.
  destruct (rounded a b <? huge) eqn:E; [auto|].
  apply Z.ltb_ge in E. lia.
Qed.

Lemma round_mag_cases a b :
  0 <= a -> 0 < b ->
  (round_mag a b = Fin (rounded a b) /\ 0 <= rounded a b < huge)
  \/ round_mag a b = Inf false.
Proof.
  intros Ha Hb. rewrite round_mag_rounded.
  pose proof (rounded_nonneg a b Ha Hb).
  destruct (rounded a b <? huge) eqn:E; [left|right; reflexivity].
  apply Z.ltb_lt in E. auto.
Qed.

Lemma round_units_nonneg a b :
  0 <= a -> round_units a b = round_mag a b.
Proof.
  intros Ha. unfold round_units.
  destruct (a <? 0) eqn:E; [apply Z.ltb_lt in E; lia|reflexivity].
Qed.

Lemma rounded_zero b : 0 < b -> rounded 0 b = 0.
Proof.
  intros Hb. unfold rounded. rewrite Z.div_0_l by lia.
  change (drop_bits 0) with 0. change (2 ^ 0) with 1.
  rewrite !Z.mul_1_r. unfold rne.
  rewrite Z.div_0_l, Z.mod_0_l by lia.
  destruct (2 * 0 <? b) eqn:E; [reflexivity|apply Z.ltb_ge in E; lia].
Qed.

End Rounding.

(** ** Strings *)

Section Strings.

Lemma append_cons c (s t : string) : String c s +:+ t = String c (s +:+ t).
Proof. reflexivity. Qed.

Lemma append_nil_l (s : string) : "" +:+ s = s.
Proof. reflexivity. Qed.

Lemma append_nil_r (s : string) : s +:+ "" = s.
Proof. induction s as [|c s IH]; [reflexivity|]. rewrite append_cons, IH. reflexivity. Qed.

Lemma append_assoc (s t u : string) : (s +:+ t) +:+ u = s +:+ (t +:+ u).
Proof.
  induction s as [|c s IH]; [reflexivity|].
  rewrite !append_cons, IH. reflexivity.
Qed.

Lemma all_chars_app cls (s t : string) :
  all_chars cls (s +:+ t) = all_chars cls s && all_chars cls t.
Proof.
  induction s as [|c s IH]; [reflexivity|].
  rewrite append_cons. simpl. rewrite IH. apply andb_assoc.
Qed.

End Strings.

(** ** The matcher *)

Section Matcher.

Lemma match_here_plus_nil cls p : match_here (Plus cls :: p) "" = None.
Proof. reflexivity. Qed.

Lemma match_here_plus_cons cls p d s :
  match_here (Plus cls :: p) (String d s) =
  if cls d then
    match match_here (Plus cls :: p) s with
    | Some (g :: gs) => Some (String d g :: gs)
    | _ =>
        match match_here p s with
        | Some gs => Some (String d "" :: gs)
        | None => None
        end
    end
  else None.
Proof. reflexivity. Qed.

Lemma match_here_lit c p d s :
  match_here (Lit c :: p) (String d s) =
  if Ascii.eqb c d then match_here p s else None.
Proof. reflexivity. Qed.

(** A literal prefix of the pattern consumes exactly that text. *)
Lemma match_here_lits l p s gs :
  match_here (lits l ++ p) s = Some gs <->
  exists s', s = l +:+ s' /\ match_here p s' = Some gs.
Proof.
  revert s. induction l as [|c l IH]; intros s.
  - simpl. split; [intros H; exists s; auto|intros (s' & -> & H); exact H].
  - change (lits (String c l) ++ p) with (Lit c :: (lits l ++ p)).
    destruct s as [|d s].
    + split; [discriminate|intros (s' & H & _); rewrite append_cons in H; discriminate].
    + rewrite match_here_lit.
      destruct (Ascii.eqb c d) eqn:E.
      * apply Ascii.eqb_eq in E. subst d. rewrite IH.
        split; intros (s' & Hs & Hm); exists s'; split; auto.
        -- rewrite append_cons. congruence.
        -- rewrite append_cons in Hs. congruence.
      * apply Ascii.eqb_neq in E.
        split; [discriminate|].
        intros (s' & Hs & _). rewrite append_cons in Hs. congruence.
Qed.

(** A repetition followed by a literal outside its class takes the whole run
    up to that literal. *)
Lemma match_here_plus_lit cls c p s gs :
  cls c = false ->
  match_here (Plus cls :: Lit c :: p) s = Some gs <->
  exists g rest gs',
    s = g +:+ String c rest /\ run_of cls g /\
    match_here p rest = Some gs' /\ gs = g :: gs'.
Proof.
  intros Hc. revert gs. induction s as [|d s IH]; intros gs.
  - split; [discriminate|].
    intros (g & rest & gs' & Hs & _). destruct g; discriminate.
  - rewrite match_here_plus_cons.
    destruct (cls d) eqn:Hd.
    + destruct (match_here (Plus cls :: Lit c :: p) s) as [[|g0 gs0]|] eqn:Hrep.
      * exfalso. destruct (proj1 (IH []) eq_refl) as (? & ? & ? & _ & _ & _ & ?).
        discriminate.
      * destruct (proj1 (IH _) eq_refl) as (g & rest & gs' & Hs & [Hg Ha] & Hm & Hgs).
        injection Hgs as -> ->.
        split.
        -- intros [= <-]. exists (String d g), rest, gs'.
           repeat split; [rewrite append_cons; congruence|discriminate| |exact Hm].
           simpl. rewrite Hd. exact Ha.
        -- intros (g1 & rest1 & gs1 & Hs1 & [Hg1 Ha1] & Hm1 & ->).
           destruct g1 as [|d1 g1]; [congruence|].
           rewrite append_cons in Hs1. injection Hs1 as <- Hs1.
           simpl in Ha1. apply andb_prop in Ha1 as [_ Ha1].
           destruct g1 as [|d2 g1].
           ++ rewrite append_nil_l in Hs1. subst s.
              destruct g; [congruence|].
              rewrite append_cons in Hs1. injection Hs1 as <- _.
              simpl in Ha. rewrite Hc in Ha. discriminate.
           ++ assert (Hsome : match_here (Plus cls :: Lit c :: p) s
                              = Some (String d2 g1 :: gs1)).
              { rewrite Hrep. apply IH. exists (String d2 g1), rest1, gs1.
                repeat split; auto; discriminate. }
              congruence.
      * split.
        -- destruct s as [|e s]; [discriminate|].
           rewrite match_here_lit.
           destruct (Ascii.eqb c e) eqn:Ee; [|discriminate].
           apply Ascii.eqb_eq in Ee. subst e.
           destruct (match_here p s) as [gs'|] eqn:Hm; [|discriminate].
           intros [= <-]. exists (String d ""), s, gs'.
           repeat split; try discriminate; auto. simpl. rewrite Hd. reflexivity.
        -- intros (g1 & rest1 & gs1 & Hs1 & [Hg1 Ha1] & Hm1 & ->).
           destruct g1 as [|d1 g1]; [congruence|].
           rewrite append_cons in Hs1. injection Hs1 as <- Hs1.
           simpl in Ha1. apply andb_prop in Ha1 as [_ Ha1].
           destruct g1 as [|d2 g1].
           ++ rewrite append_nil_l in Hs1. subst s.
              rewrite match_here_lit, Ascii.eqb_refl, Hm1. reflexivity.
           ++ assert (Hsome : match_here (Plus cls :: Lit c :: p) s
                              = Some (String d2 g1 :: gs1)).
              { rewrite Hrep. apply IH. exists (String d2 g1), rest1, gs1.
                repeat split; auto; discriminate. }
              congruence.
    + split; [discriminate|].
      intros (g1 & rest1 & gs1 & Hs1 & [Hg1 Ha1] & _).
      destruct g1 as [|d1 g1]; [congruence|].
      rewrite append_cons in Hs1. injection Hs1 as <- _.
      simpl in Ha1. rewrite Hd in Ha1. discriminate.
Qed.

(** A repetition that ends the pattern takes the longest run. *)
Lemma match_here_plus_end cls s gs :
  match_here [Plus cls] s = Some gs <->
  exists g rest, s = g +:+ rest /\ run_of cls g /\ stops cls rest /\ gs = [g].
Proof.
  revert gs. induction s as [|d s IH]; intros gs.
  - split; [discriminate|].
    intros (g & rest & Hs & [Hg _] & _). destruct g; [congruence|discriminate].
  - rewrite match_here_plus_cons.
    destruct (cls d) eqn:Hd.
    + destruct (match_here [Plus cls] s) as [[|g0 gs0]|] eqn:Hrep.
      * exfalso. destruct (proj1 (IH []) eq_refl) as (? & ? & _ & _ & _ & ?).
        discriminate.
      * destruct (proj1 (IH _) eq_refl) as (g & rest & Hs & [Hg Ha] & Hst & Hgs).
        injection Hgs as -> ->.
        split.
        -- intros [= <-]. exists (String d g), rest.
           repeat split; [rewrite append_cons; congruence|discriminate| |exact Hst].
           simpl. rewrite Hd. exact Ha.
        -- intros (g1 & rest1 & Hs1 & [Hg1 Ha1] & Hst1 & ->).
           destruct g1 as [|d1 g1]; [congruence|].
           rewrite append_cons in Hs1. injection Hs1 as <- Hs1.
           simpl in Ha1. apply andb_prop in Ha1 as [_ Ha1].
           destruct g1 as [|d2 g1].
           ++ rewrite append_nil_l in Hs1. rewrite <- Hs1, Hs in Hst1.
              destruct g; [congruence|]. rewrite append_cons in Hst1.
              simpl in Hst1, Ha. rewrite Hst1 in Ha. discriminate.
           ++ assert (Hsome : match_here [Plus cls] s = Some [String d2 g1]).
              { rewrite Hrep. apply IH. exists (String d2 g1), rest1.
                repeat split; auto; discriminate. }
              congruence.
      * split.
        -- simpl. intros [= <-]. exists (String d ""), s.
           repeat split; [discriminate|simpl; rewrite Hd; reflexivity|].
           destruct s as [|e s]; [exact I|]. simpl.
           destruct (cls e) eqn:He; [|reflexivity].
           exfalso. rewrite match_here_plus_cons, He in Hrep.
           destruct (match_here [Plus cls] s) as [[|]|]; discriminate.
        -- intros (g1 & rest1 & Hs1 & [Hg1 Ha1] & Hst1 & ->).
           destruct g1 as [|d1 g1]; [congruence|].
           rewrite append_cons in Hs1. injection Hs1 as <- Hs1.
           simpl in Ha1. apply andb_prop in Ha1 as [_ Ha1].
           destruct g1 as [|d2 g1]; [reflexivity|].
           assert (Hsome : match_here [Plus cls] s = Some [String d2 g1]).
           { rewrite Hrep. apply IH. exists (String d2 g1), rest1.
             repeat split; auto; discriminate. }
           congruence.
    + split; [discriminate|].
      intros (g1 & rest1 & Hs1 & [Hg1 Ha1] & _).
      destruct g1 as [|d1 g1]; [congruence|].
      rewrite append_cons in Hs1. injection Hs1 as <- _.
      simpl in Ha1. rewrite Hd in Ha1. discriminate.
Qed.

End Matcher.

(** ** The two patterns and [re.search] *)

Section Search.

Lemma not_quote_quote : not_quote "'" = false.
Proof. reflexivity. Qed.

Lemma match_file_iff s gs :
  match_here file_re s = Some gs <->
  exists path, gs = [path] /\ file_line_at path s.
Proof.
  unfold file_re, file_line_at.
  change ([Plus not_quote] ++ lits "'") with [Plus not_quote; Lit "'"%char].
  rewrite match_here_lits. split.
  - intros (s' & -> & Hm).
    apply (match_here_plus_lit _ _ _ _ _ not_quote_quote) in Hm
      as (g & rest & gs' & -> & Hrun & Hnil & ->).
    simpl in Hnil. injection Hnil as <-.
    exists g. split; [reflexivity|]. exists rest. auto.
  - intros (path & -> & post & -> & Hrun).
    eexists. split; [reflexivity|].
    apply (match_here_plus_lit _ _ _ _ _ not_quote_quote).
    exists path, post, []. auto.
Qed.

Lemma is_digit_dot : is_digit "." = false.
Proof. reflexivity. Qed.

Lemma is_digit_percent : is_digit "%" = false.
Proof. reflexivity. Qed.

(** What a match of the coverage pattern looks like: the last group is the
    longest run of digits. *)
Lemma match_coverage_iff s gs :
  match_here coverage_re s = Some gs <->
  exists ip fp tot post,
    s = "Lines executed:" +:+ ip +:+ "." +:+ fp +:+ "% of " +:+ tot +:+ post
    /\ run_of is_digit ip /\ run_of is_digit fp /\ run_of is_digit tot
    /\ stops is_digit post /\ gs = [ip; fp; tot].
Proof.
  unfold coverage_re.
  change ([Plus is_digit] ++ lits "." ++ [Plus is_digit] ++ lits "% of "
          ++ [Plus is_digit])
    with (Plus is_digit :: Lit "."%char
          :: Plus is_digit :: Lit "%"%char :: (lits " of " ++ [Plus is_digit])).
  rewrite match_here_lits. split.
  - intros (s1 & -> & Hm).
    apply (match_here_plus_lit _ _ _ _ _ is_digit_dot) in Hm
      as (ip & s2 & gs2 & -> & Hip & Hm & ->).
    apply (match_here_plus_lit _ _ _ _ _ is_digit_percent) in Hm
      as (fp & s3 & gs3 & -> & Hfp & Hm & ->).
    apply match_here_lits in Hm as (s4 & -> & Hm).
    apply match_here_plus_end in Hm as (tot & post & -> & Htot & Hst & ->).
    exists ip, fp, tot, post. repeat split; auto; apply Hip || apply Hfp || apply Htot.
  - intros (ip & fp & tot & post & -> & Hip & Hfp & Htot & Hst & ->).
    eexists. split; [reflexivity|].
    apply (match_here_plus_lit _ _ _ _ _ is_digit_dot).
    exists ip, (fp +:+ "% of " +:+ tot +:+ post), [fp; tot].
    repeat split; auto; try apply Hip.
    apply (match_here_plus_lit _ _ _ _ _ is_digit_percent).
    exists fp, (" of " +:+ tot +:+ post), [tot].
    repeat split; auto; try apply Hfp.
    apply match_here_lits. eexists. split; [reflexivity|].
    apply match_here_plus_end. exists tot, post. auto.
Qed.

(** A run followed by any text splits into the longest run and the rest. *)
Lemma run_extend cls g post :
  run_of cls g ->
  exists g' rest,
    g +:+ post = g' +:+ rest /\ run_of cls g' /\ stops cls rest.
Proof.
  revert g. induction post as [|c post IH]; intros g Hg.
  - exists g, "". repeat split; apply Hg.
  - destruct (cls c) eqn:Hc.
    + destruct (IH (g +:+ String c "")) as (g' & rest & Heq & Hrun & Hst).
      * destruct Hg as [Hne Hall]. split.
        -- destruct g; [congruence|discriminate].
        -- rewrite all_chars_app, Hall. simpl. rewrite Hc. reflexivity.
      * exists g', rest. rewrite append_assoc in Heq. auto.
    + exists g, (String c post). repeat split; try apply Hg. exact Hc.
Qed.

Lemma coverage_line_matches ip fp tot s :
  coverage_line_at ip fp tot s ->
  exists tot', match_here coverage_re s = Some [ip; fp; tot'].
Proof.
  intros (post & -> & Hip & Hfp & Htot).
  destruct (run_extend is_digit tot post Htot) as (tot' & rest & Heq & Hrun & Hst).
  exists tot'. apply match_coverage_iff.
  exists ip, fp, tot', rest. rewrite Heq. auto 10.
Qed.

Lemma re_search_unfold p s :
  re_search p s =
  match match_here p s with
  | Some gs => Some gs
  | None =>
      match s with
      | EmptyString => None
      | String _ s' => re_search p s'
      end
  end.
Proof. destruct s; reflexivity. Qed.


Lemma re_search_some p s gs :
  re_search p s = Some gs ->
  exists pre suf, s = pre +:+ suf /\ first_match p pre suf gs.
Proof.
  revert gs. induction s as [|c s IH]; intros gs; rewrite re_search_unfold.
  - destruct (match_here p "") eqn:Hm; [|discriminate].
    intros [= <-]. exists "", "". repeat split; auto.
    intros pre1 pre2 Heq Hne. destruct pre1, pre2; try discriminate. congruence.
  - destruct (match_here p (String c s)) eqn:Hm.
    + intros [= <-]. exists "", (String c s). repeat split; auto.
      intros pre1 pre2 Heq Hne. destruct pre1, pre2; try discriminate. congruence.
    + intros Hs. destruct (IH _ Hs) as (pre & suf & -> & Hm' & Hno).
      exists (String c pre), suf. repeat split; auto.
      intros pre1 pre2 Heq Hne.
      destruct pre1 as [|c1 pre1].
      * rewrite append_nil_l in Heq. subst pre2. exact Hm.
      * rewrite append_cons in Heq. injection Heq as -> ->.
        apply (Hno pre1 pre2); auto.
Qed.

Lemma re_search_none p s :
  re_search p s = None ->
  forall pre suf, s = pre +:+ suf -> match_here p suf = None.
Proof.
  induction s as [|c s IH]; rewrite re_search_unfold; intros Hn pre suf Heq.
  - destruct pre, suf; try discriminate.
    destruct (match_here p ""); [discriminate|reflexivity].
  - destruct (match_here p (String c s)) eqn:Hm; [discriminate|].
    destruct pre as [|c1 pre].
    + rewrite append_nil_l in Heq. subst suf. exact Hm.
    + rewrite append_cons in Heq. injection Heq as -> ->.
      apply (IH Hn pre suf eq_refl).
Qed.

Lemma re_search_complete p pre suf gs :
  match_here p suf = Some gs ->
  exists gs', re_search p (pre +:+ suf) = Some gs'.
Proof.
  intros Hm. destruct (re_search p (pre +:+ suf)) as [gs'|] eqn:Hs.
  - exists gs'. reflexivity.
  - rewrite (re_search_none _ _ Hs pre suf eq_refl) in Hm. discriminate.
Qed.

(** The file pattern is found exactly in the texts that have a file line. *)
Lemma search_file_iff output :
  has_file_line output <->
  exists path, re_search file_re output = Some [path].
Proof.
  split.
  - intros (pre & path & suf & -> & Hline).
    assert (Hm : match_here file_re suf = Some [path])
      by (apply match_file_iff; eauto).
    destruct (re_search_complete file_re pre suf _ Hm) as (gs & Hs).
    destruct (re_search_some _ _ _ Hs) as (pre' & suf' & _ & Hm' & _).
    apply match_file_iff in Hm' as (path' & -> & _). eauto.
  - intros (path & Hs).
    destruct (re_search_some _ _ _ Hs) as (pre & suf & -> & Hm & _).
    apply match_file_iff in Hm as (path' & [= <-] & Hline).
    exists pre, path, suf. auto.
Qed.

(** The coverage pattern is found exactly in the texts that have a coverage
    line. *)
Lemma search_coverage_iff output :
  has_coverage_line output <->
  exists ip fp tot, re_search coverage_re output = Some [ip; fp; tot].
Proof.
  split.
  - intros (pre & ip & fp & tot & suf & -> & Hline).
    destruct (coverage_line_matches _ _ _ _ Hline) as (tot' & Hm).
    destruct (re_search_complete coverage_re pre suf _ Hm) as (gs & Hs).
    destruct (re_search_some _ _ _ Hs) as (pre' & suf' & _ & Hm' & _).
    apply match_coverage_iff in Hm'
      as (ip' & fp' & tot'' & post & _ & _ & _ & _ & _ & ->). eauto.
  - intros (ip & fp & tot & Hs).
    destruct (re_search_some _ _ _ Hs) as (pre & suf & -> & Hm & _).
    apply match_coverage_iff in Hm
      as (ip' & fp' & tot' & post & -> & Hip & Hfp & Htot & _ & [= <- <- <-]).
    exists pre, ip, fp, tot. eexists. split; [reflexivity|].
    exists post. auto.
Qed.

End Search.

(** ** Arithmetic of one record *)

Section RecordArithmetic.

Lemma unit_pos : 0 < unit.
Proof. reflexivity. Qed.

Lemma huge_unit : huge = 2 ^ 1024 * unit.
Proof. reflexivity. Qed.

Lemma digit_value_range c : is_digit c = true -> 0 <= digit_value c <= 9.
Proof.
  unfold is_digit, digit_value. intros H.
  apply andb_prop in H as [H1 H2].
  apply Z.leb_le in H1. apply Z.leb_le in H2. lia.
Qed.

Lemma int_acc_nonneg s acc :
  all_chars is_digit s = true -> 0 <= acc -> 0 <= int_acc acc s.
Proof.
  revert acc. induction s as [|c s IH]; intros acc Hall Hacc; simpl; [lia|].
  simpl in Hall. apply andb_prop in Hall as [Hc Hs].
  pose proof (digit_value_range c Hc). apply IH; [exact Hs|lia].
Qed.

Lemma int_of_digits_nonneg s :
  all_chars is_digit s = true -> 0 <= int_of_digits s.
Proof. intros H. apply int_acc_nonneg; [exact H|lia]. Qed.

Lemma round_units_nonneg_or_inf a b :
  0 <= a -> 0 < b -> nonneg_or_inf (round_units a b).
Proof.
  intros Ha Hb. rewrite round_units_nonneg by exact Ha.
  destruct (round_mag_cases a b Ha Hb) as [[-> H]| ->]; simpl; auto.
Qed.

Lemma float_of_digits_nonneg ip fp :
  all_chars is_digit ip = true -> all_chars is_digit fp = true ->
  nonneg_or_inf (float_of_digits ip fp).
Proof.
  intros Hip Hfp. unfold float_of_digits, of_decimal.
  pose proof unit_pos.
  apply round_units_nonneg_or_inf.
  - assert (0 <= int_of_digits (ip +:+ fp)); [|nia].
    apply int_of_digits_nonneg. rewrite all_chars_app, Hip, Hfp. reflexivity.
  - apply Z.pow_pos_nonneg; lia.
Qed.

Lemma of_int_nonneg i :
  0 <= i ->
  (exists t, of_int i = Ok (Fin t) /\ 0 <= t < huge)
  \/ of_int i = Raise OverflowError.
Proof.
  intros Hi. unfold of_int. pose proof unit_pos.
  pose proof (round_units_nonneg_or_inf (i * unit) 1 ltac:(nia) ltac:(lia)) as Hr.
  destruct (round_units (i * unit) 1); simpl in Hr; eauto.
Qed.

Lemma of_int_zero : of_int 0 = Ok (Fin 0).
Proof.
  unfold of_int. rewrite Z.mul_0_l, round_units_nonneg by lia.
  rewrite round_mag_rounded, rounded_zero by lia. reflexivity.
Qed.

Lemma fmul_zero_l n : fmul (Fin 0) (Fin n) = Fin 0.
Proof.
  unfold fmul. rewrite Z.mul_0_l, round_units_nonneg by lia.
  rewrite round_mag_rounded, rounded_zero by apply unit_pos. reflexivity.
Qed.

Lemma fmul_nonneg a x :
  0 <= a -> nonneg_or_inf x ->
  nonneg_or_inf (fmul (Fin a) x) \/ fmul (Fin a) x = NaN.
Proof.
  intros Ha Hx. destruct x as [n|s|]; simpl in *; [| |contradiction].
  - left. apply round_units_nonneg_or_inf; [nia|apply unit_pos].
  - subst s. destruct (a =? 0) eqn:E; [right; reflexivity|left].
    apply Z.eqb_neq in E. simpl.
    destruct (a <? 0) eqn:E2; [apply Z.ltb_lt in E2; lia|reflexivity].
Qed.

Lemma fdiv_hundred x :
  0 <= x ->
  fdiv (Fin x) hundred = Ok (round_units (x * unit) (100 * unit)).
Proof.
  intros Hx. unfold fdiv, hundred, of_small. pose proof unit_pos.
  destruct (100 * unit) eqn:E; try lia. reflexivity.
Qed.

Lemma fdiv_hundred_nonneg x :
  0 <= x ->
  exists y, fdiv (Fin x) hundred = Ok y /\ nonneg_or_inf y.
Proof.
  intros Hx. rewrite fdiv_hundred by exact Hx. eexists. split; [reflexivity|].
  pose proof unit_pos. apply round_units_nonneg_or_inf; nia.
Qed.

Lemma fdiv_inf_hundred : fdiv (Inf false) hundred = Ok (Inf false).
Proof.
  unfold fdiv, hundred, of_small. pose proof unit_pos.
  destruct (100 * unit) eqn:E; try lia. reflexivity.
Qed.

Lemma fdiv_nan_hundred : fdiv NaN hundred = Ok NaN.
Proof.
  unfold fdiv, hundred, of_small. pose proof unit_pos.
  destruct (100 * unit) eqn:E; try lia. reflexivity.
Qed.

Lemma to_int_nonneg y : 0 <= y -> to_int (Fin y) = Ok (y / unit).
Proof.
  intros Hy. unfold to_int. rewrite Z.quot_div_nonneg; auto using unit_pos.
Qed.

Lemma int_of_text_ok s :
  Z.of_nat (String.length s) <= max_str_digits ->
  int_of_text s = Ok (int_of_digits s).
Proof.
  intros H. unfold int_of_text.
  destruct (max_str_digits <? _) eqn:E; [apply Z.ltb_lt in E; lia|reflexivity].
Qed.

Lemma int_of_text_long s :
  max_str_digits < Z.of_nat (String.length s) ->
  int_of_text s = Raise ValueError.
Proof. intros H. unfold int_of_text. apply Z.ltb_lt in H. rewrite H. reflexivity. Qed.

(** A total of too many digits gives no record. *)
Lemma record_of_groups_long filename ip fp tot :
  max_str_digits < Z.of_nat (String.length tot) ->
  record_of_groups filename ip fp tot = Raise ValueError.
Proof.
  intros H. unfold record_of_groups. rewrite (int_of_text_long tot H).
  reflexivity.
Qed.

Lemma record_of_groups_limit filename ip fp tot d :
  record_of_groups filename ip fp tot = Ok d ->
  Z.of_nat (String.length tot) <= max_str_digits.
Proof.
  intros H.
  destruct (Z_lt_le_dec max_str_digits (Z.of_nat (String.length tot)))
    as [Hlong|Hok]; [|exact Hok].
  rewrite (record_of_groups_long filename ip fp tot Hlong) in H. discriminate.
Qed.

(** The record built from the groups, in terms of [floor_percent]. *)
Lemma record_of_groups_spec filename ip fp tot :
  all_chars is_digit ip = true -> all_chars is_digit fp = true ->
  all_chars is_digit tot = true ->
  Z.of_nat (String.length tot) <= max_str_digits ->
  match floor_percent (int_of_digits tot) (float_of_digits ip fp) with
  | Some c =>
      record_of_groups filename ip fp tot =
      Ok {| file := filename; percentage := float_of_digits ip fp;
            covered := c; total := int_of_digits tot |}
  | None => exists e, record_of_groups filename ip fp tot = Raise e
  end.
Proof.
  intros Hip Hfp Htot Hlen. unfold floor_percent, record_of_groups.
  rewrite (int_of_text_ok tot Hlen). cbn [mbind result_bind].
  pose proof (float_of_digits_nonneg ip fp Hip Hfp) as Hp.
  destruct (of_int_nonneg (int_of_digits tot) (int_of_digits_nonneg _ Htot))
    as [(t & -> & Ht)| ->]; [|eexists; reflexivity].
  cbn [mbind result_bind].
  destruct (fmul_nonneg t (float_of_digits ip fp) ltac:(lia) Hp) as [Hx|Hx].
  - destruct (fmul (Fin t) (float_of_digits ip fp)) as [x|s|]; simpl in Hx;
      [| |contradiction].
    + destruct (fdiv_hundred_nonneg x ltac:(lia)) as (y & -> & Hy).
      cbn [mbind result_bind].
      destruct y as [y|s|]; simpl in Hy; [| |contradiction].
      * rewrite to_int_nonneg by lia. reflexivity.
      * eexists. reflexivity.
    + subst s. rewrite fdiv_inf_hundred. eexists. reflexivity.
  - rewrite Hx, fdiv_nan_hundred. eexists. reflexivity.
Qed.

Lemma rne_exact a b : 0 < b -> (b | a) -> rne a b = a / b.
Proof.
  intros Hb Hd. unfold rne.
  rewrite (proj2 (Z.mod_divide a b ltac:(lia)) Hd).
  destruct (2 * 0 <? b) eqn:E; [reflexivity|apply Z.ltb_ge in E; lia].
Qed.

(** Integers below [2^53] are doubles. *)
Lemma of_int_exact i : 0 <= i < 2 ^ 53 -> of_int i = Ok (Fin (i * unit)).
Proof.
  intros Hi. unfold of_int. pose proof unit_pos as HU.
  rewrite round_units_nonneg by nia.
  rewrite round_mag_rounded.
  assert (Hr : rounded (i * unit) 1 = i * unit).
  { unfold rounded. rewrite Z.div_1_r, Z.mul_1_l.
    set (k := drop_bits (i * unit)).
    assert (Hk : 0 <= k <= 1074).
    { split; [apply drop_bits_nonneg|].
      unfold k, drop_bits, prec.
      destruct (Z.eq_dec i 0) as [->|Hne]; [rewrite Z.mul_0_l; simpl; lia|].
      unfold unit. rewrite Z.log2_mul_pow2 by lia.
      assert (Z.log2 i < 53) by (apply Z.log2_lt_pow2; lia). lia. }
    assert (Hdiv : (2 ^ k | i * unit)).
    { apply Z.divide_mul_r. unfold unit.
      exists (2 ^ (1074 - k)). rewrite <- Z.pow_add_r by lia. f_equal. lia. }
    rewrite rne_exact by (auto; apply Z.pow_pos_nonneg; lia).
    destruct Hdiv as [z Hz]. rewrite Hz.
    rewrite Z.div_mul; [reflexivity|].
    apply Z.pow_nonzero; lia. }
  rewrite Hr.
  assert (Hlt : i * unit < huge).
  { rewrite huge_unit. apply Z.mul_lt_mono_pos_r; [exact HU|].
    apply Z.lt_trans with (2 ^ 53); [lia|]. reflexivity. }
  apply Z.ltb_lt in Hlt. rewrite Hlt. reflexivity.
Qed.

Lemma covered_le_total T pn c :
  0 <= T < 2 ^ 52 -> 0 <= pn <= 100 * unit ->
  floor_percent T (Fin pn) = Some c -> 0 <= c <= T.
Proof.
  intros HT Hp. unfold floor_percent.
  rewrite of_int_exact by (split; [lia|]; apply Z.lt_trans with (2 ^ 52); [lia|reflexivity]).
  pose proof unit_pos as HU.
  unfold fmul. rewrite round_units_nonneg by nia.
  destruct (round_mag_cases (T * unit * pn) unit ltac:(nia) HU) as [[-> Hx]| ->];
    [|discriminate].
  pose proof (rounded_upper (T * unit * pn) unit ltac:(nia) HU) as Hxu.
  set (x := rounded (T * unit * pn) unit) in *.
  rewrite fdiv_hundred by lia.
  rewrite round_units_nonneg by nia.
  destruct (round_mag_cases (x * unit) (100 * unit) ltac:(nia) ltac:(lia))
    as [[-> Hy]| ->]; [|discriminate].
  pose proof (rounded_upper (x * unit) (100 * unit) ltac:(nia) ltac:(lia)) as Hyu.
  set (y := rounded (x * unit) (100 * unit)) in *.
  intros [= <-]. split; [apply Z.div_pos; lia|].
  apply Z.lt_succ_r. apply Z.div_lt_upper_bound; [exact HU|].
  (* cancel the unit in both bounds *)
  assert (Hx' : 2 ^ 53 * x <= T * pn * (2 ^ 53 + 1) + 2 ^ 52).
  { apply (Z.mul_le_mono_pos_l _ _ unit HU). nia. }
  assert (Hy' : 100 * 2 ^ 53 * y <= x * (2 ^ 53 + 1) + 50 * 2 ^ 53).
  { apply (Z.mul_le_mono_pos_l _ _ unit HU). nia. }
  assert (Hw : T * pn <= 100 * unit * T) by nia.
  assert (HUE : 2 ^ 53 < unit) by reflexivity.
  set (w := T * pn) in *.
  set (v := unit * T) in *.
  assert (Hv : 0 <= v) by (unfold v; nia).
  assert (Hv' : v <= unit * (2 ^ 52 - 1)) by (unfold v; nia).
  replace (unit * Z.succ T) with (v + unit) by (unfold v; lia).
  replace (100 * unit * T) with (100 * v) in Hw by (unfold v; lia).
  clearbody w v x y. 
  generalize dependent unit. intros U. intros. 
  change (2 ^ 53) with 9007199254740992 in *.
  change (2 ^ 52) with 4503599627370496 in *.
  nia.
Qed.
(** The covered count of a record is never negative, vanishes with the total
    and stays far below the range of doubles. *)
Lemma floor_percent_bound T p c :
  0 <= T -> nonneg_or_inf p -> floor_percent T p = Some c ->
  0 <= c <= 2 ^ 1018 * T /\ exists pn, p = Fin pn /\ 0 <= pn.
Proof.
  intros HT Hp. unfold floor_percent. pose proof unit_pos as HU.
  destruct p as [pn|s|]; simpl in Hp; [| |contradiction].
  2:{ destruct (of_int T) as [[t|?|]|]; try discriminate.
      unfold fmul. destruct (t =? 0); discriminate. }
  intros H. split; [|exists pn; split; [reflexivity|lia]]. revert H.
  destruct (Z.eq_dec T 0) as [->|HT0].
  - rewrite of_int_zero, fmul_zero_l, fdiv_hundred, Z.mul_0_l by lia.
    rewrite round_units_nonneg, round_mag_rounded, rounded_zero by lia.
    simpl. intros [= <-]. rewrite Z.div_0_l by lia. lia.
  - destruct (of_int_nonneg T HT) as [(t & -> & Ht)| ->]; [|discriminate].
    unfold fmul. rewrite round_units_nonneg by nia.
    destruct (round_mag_cases (t * pn) unit ltac:(nia) HU) as [[-> Hx]| ->];
      [|discriminate].
    set (x := rounded (t * pn) unit) in *.
    rewrite fdiv_hundred by lia. rewrite round_units_nonneg by nia.
    assert (Hlt : x * unit < 100 * unit * 2 ^ 2092).
    { assert (huge <= 100 * 2 ^ 2092) by (unfold huge; lia). nia. }
    destruct (round_mag_finite (x * unit) (100 * unit) 2092
                ltac:(nia) ltac:(lia) ltac:(lia) Hlt) as [-> Hy].
    intros [= <-]. split; [apply Z.div_pos; lia|].
    apply Z.le_trans with (2 ^ 1018).
    + apply Z.lt_succ_r, Z.div_lt_upper_bound; [exact HU|].
      assert (2 ^ 2092 = unit * 2 ^ 1018) by reflexivity. lia.
    + assert (0 < 2 ^ 1018) by reflexivity. nia.
Qed.

End RecordArithmetic.

(** ** [parse_gcov_output] *)

Section Parse.

Lemma parse_of_groups r filename ip fp tot :
  re_search file_re (stdout r +:+ stderr r) = Some [filename] ->
  re_search coverage_re (stdout r +:+ stderr r) = Some [ip; fp; tot] ->
  parse_gcov_output (Ok r) =
  match record_of_groups filename ip fp tot with
  | Ok d => Ok (Some d)
  | Raise _ => Ok None
  end.
Proof.
  intros Hf Hc. unfold parse_gcov_output, parse_body.
  cbn [mbind result_bind]. rewrite Hf, Hc.
  destruct (record_of_groups filename ip fp tot); reflexivity.
Qed.

Lemma search_coverage_digits output ip fp tot :
  re_search coverage_re output = Some [ip; fp; tot] ->
  all_chars is_digit ip = true /\ all_chars is_digit fp = true
  /\ all_chars is_digit tot = true.
Proof.
  intros Hs. destruct (re_search_some _ _ _ Hs) as (pre & suf & _ & Hm & _).
  apply match_coverage_iff in Hm
    as (ip' & fp' & tot' & post & _ & Hip & Hfp & Htot & _ & [= <- <- <-]).
  repeat split; apply Hip || apply Hfp || apply Htot.
Qed.

(** Every record comes from the groups of the two searches. *)
Lemma parse_some_inv run d :
  parse_gcov_output run = Ok (Some d) ->
  exists r filename ip fp tot,
    run = Ok r
    /\ re_search file_re (stdout r +:+ stderr r) = Some [filename]
    /\ re_search coverage_re (stdout r +:+ stderr r) = Some [ip; fp; tot]
    /\ record_of_groups filename ip fp tot = Ok d.
Proof.
  unfold parse_gcov_output, parse_body. destruct run as [r|e]; [|discriminate].
  cbn [mbind result_bind].
  destruct (re_search file_re _) as [[|filename [|]]|] eqn:Hf; try discriminate.
  destruct (re_search coverage_re _) as [[|ip [|fp [|tot [|]]]]|] eqn:Hc;
    try discriminate.
  destruct (record_of_groups filename ip fp tot) as [d'|e] eqn:Hr;
    [|discriminate].
  cbn [mbind result_bind]. intros [= <-].
  exists r, filename, ip, fp, tot. auto.
Qed.

(** The fields of a record in terms of [floor_percent]. *)
Lemma parse_some_fields run d :
  parse_gcov_output run = Ok (Some d) ->
  0 <= total d
  /\ nonneg_or_inf (percentage d)
  /\ floor_percent (total d) (percentage d) = Some (covered d).
Proof.
  intros H. apply parse_some_inv in H
    as (r & filename & ip & fp & tot & _ & _ & Hc & Hr).
  destruct (search_coverage_digits _ _ _ _ Hc) as (Hip & Hfp & Htot).
  pose proof (record_of_groups_limit _ _ _ _ _ Hr) as Hlen.
  pose proof (record_of_groups_spec filename ip fp tot Hip Hfp Htot Hlen)
    as Hs.
  destruct (floor_percent _ _) as [c|] eqn:Hfl.
  - rewrite Hs in Hr. injection Hr as <-. simpl.
    auto using int_of_digits_nonneg, float_of_digits_nonneg.
  - destruct Hs as (e & He). congruence.
Qed.

Lemma floor_percent_defined T pn :
  0 <= T < 2 ^ 64 -> 0 <= pn <= 2 ^ 64 * unit ->
  exists c, floor_percent T (Fin pn) = Some c.
Proof.
  intros HT Hp. unfold floor_percent, of_int. pose proof unit_pos as HU.
  rewrite round_units_nonneg by nia.
  assert (H1 : T * unit < 1 * 2 ^ 1138).
  { change (2 ^ 1138) with (2 ^ 64 * unit). nia. }
  destruct (round_mag_finite (T * unit) 1 1138 ltac:(nia) ltac:(lia) ltac:(lia) H1)
    as [-> Ht].
  set (t := rounded (T * unit) 1) in *.
  unfold fmul. rewrite round_units_nonneg by nia.
  assert (H2 : t * pn < unit * 2 ^ 1203).
  { change (2 ^ 1203) with (2 ^ 1138 * 2 ^ 64 * 2).
    change (2 ^ 1138) with (2 ^ 64 * unit) in *.
    assert (0 < 2 ^ 64) by reflexivity. nia. }
  destruct (round_mag_finite (t * pn) unit 1203 ltac:(nia) HU ltac:(lia) H2)
    as [-> Hx].
  set (x := rounded (t * pn) unit) in *.
  rewrite fdiv_hundred, round_units_nonneg by nia.
  assert (H3 : x * unit < 100 * unit * 2 ^ 1203) by nia.
  destruct (round_mag_finite (x * unit) (100 * unit) 1203
              ltac:(nia) ltac:(lia) ltac:(lia) H3) as [-> Hy].
  eexists. reflexivity.
Qed.

Lemma fle_fin_inv x b :
  nonneg_or_inf x -> fle x (Fin b) = true ->
  exists n, x = Fin n /\ 0 <= n <= b.
Proof.
  destruct x as [n|s|]; simpl; intros Hx H; [| |contradiction].
  - exists n. apply negb_true_iff, Z.ltb_ge in H. split; [reflexivity|lia].
  - subst s. discriminate.
Qed.

End Parse.

(** ** Claims on the extraction *)

Section ExtractionClaims.

(** C1 (amended). For every output text of the coverage tool that has both
    required lines, both patterns are found, and extraction returns the record
    whose percentage is the double nearest to the parsed percent, whose total
    is the parsed total and whose covered count is the floor of
    [total * percentage / 100] evaluated in double arithmetic, provided the
    total has no more digits than [int] accepts and every intermediate double
    is finite; otherwise it returns no record. The record is returned
    whenever the total has at most 4300 digits and is below [2^64], and the
    percentage is at most [2^64]. *)
Theorem extraction_computes_floor (r : completed) :
  has_file_line (stdout r +:+ stderr r) ->
  has_coverage_line (stdout r +:+ stderr r) ->
  exists filename ip fp tot,
    re_search file_re (stdout r +:+ stderr r) = Some [filename]
    /\ re_search coverage_re (stdout r +:+ stderr r) = Some [ip; fp; tot]
    /\ parse_gcov_output (Ok r) =
       Ok (if max_str_digits <? Z.of_nat (String.length tot) then None
           else
             match
               floor_percent (int_of_digits tot) (float_of_digits ip fp)
             with
             | Some c =>
                 Some {| file := filename;
                         percentage := float_of_digits ip fp;
                         covered := c;
                         total := int_of_digits tot |}
             | None => None
             end)
    /\ (Z.of_nat (String.length tot) <= max_str_digits ->
        int_of_digits tot < 2 ^ 64 ->
        fle (float_of_digits ip fp) (of_small (2 ^ 64)) = true ->
        exists c,
          floor_percent (int_of_digits tot) (float_of_digits ip fp) = Some c
          /\ parse_gcov_output (Ok r) =
             Ok (Some {| file := filename;
                         percentage := float_of_digits ip fp;
                         covered := c;
                         total := int_of_digits tot |})).
Proof.
  intros Hfile Hcov.
  apply search_file_iff in Hfile as (filename & Hf).
  apply search_coverage_iff in Hcov as (ip & fp & tot & Hc).
  exists filename, ip, fp, tot.
  destruct (search_coverage_digits _ _ _ _ Hc) as (Hip & Hfp & Htot).
  assert (Hshort : Z.of_nat (String.length tot) <= max_str_digits ->
            parse_gcov_output (Ok r) =
            Ok (match
                  floor_percent (int_of_digits tot) (float_of_digits ip fp)
                with
                | Some c =>
                    Some {| file := filename;
                            percentage := float_of_digits ip fp;
                            covered := c;
                            total := int_of_digits tot |}
                | None => None
                end)).
  { intros Hlen. rewrite (parse_of_groups r filename ip fp tot Hf Hc).
    pose proof (record_of_groups_spec filename ip fp tot Hip Hfp Htot Hlen)
      as Hs.
    destruct (floor_percent _ _) as [c|].
    - rewrite Hs. reflexivity.
    - destruct Hs as (e & ->). reflexivity. }
  split; [exact Hf|]. split; [exact Hc|]. split.
  - destruct (max_str_digits <? Z.of_nat (String.length tot)) eqn:E.
    + apply Z.ltb_lt in E.
      rewrite (parse_of_groups r filename ip fp tot Hf Hc).
      rewrite (record_of_groups_long filename ip fp tot E). reflexivity.
    + apply Z.ltb_ge in E. apply Hshort. exact E.
  - intros Hlen HT Hp.
    pose proof (float_of_digits_nonneg ip fp Hip Hfp) as Hnn.
    destruct (fle_fin_inv _ _ Hnn Hp) as (pn & Hpn_eq & Hpn).
    destruct (floor_percent_defined (int_of_digits tot) pn) as (c & Hc');
      [split; [apply int_of_digits_nonneg; exact Htot|exact HT]|exact Hpn|].
    rewrite <- Hpn_eq in Hc'.
    exists c. split; [exact Hc'|].
    rewrite (Hshort Hlen), Hc'. reflexivity.
Qed.

Lemma has_file_line_of_search output path :
  re_search file_re output = Some [path] -> has_file_line output.
Proof. intros H. apply search_file_iff. eauto. Qed.

Lemma has_coverage_line_of_search output ip fp tot :
  re_search coverage_re output = Some [ip; fp; tot] -> has_coverage_line output.
Proof. intros H. apply search_coverage_iff. eauto. Qed.

Lemma engine_has_file_line :
  has_file_line (stdout engine_output +:+ stderr engine_output).
Proof. eapply has_file_line_of_search. vm_compute. reflexivity. Qed.

Lemma engine_has_coverage_line :
  has_coverage_line (stdout engine_output +:+ stderr engine_output).
Proof. eapply has_coverage_line_of_search. vm_compute. reflexivity. Qed.

(** The scenario of the specification: 75.00% of 40 lines gives 30 of 40. *)
Lemma extraction_computes_floor_witness :
  parse_gcov_output (Ok engine_output) =
  Ok (Some {| file := "src/core/engine.c"; percentage := of_small 75;
              covered := 30; total := 40 |}).
Proof.
  destruct (extraction_computes_floor engine_output
              engine_has_file_line engine_has_coverage_line)
    as (filename & ip & fp & tot & Hf & Hc & Hp & _).
  vm_compute in Hf. injection Hf as <-.
  vm_compute in Hc. injection Hc as <- <- <-.
  rewrite Hp. vm_compute. reflexivity.
Defined.

(** C1, as stated, fails: a text with both required lines whose total does
    not convert to a double gives no record, and neither does one whose total
    is 40 written with more digits than [int] accepts. Besides, the floor is
    that of double arithmetic and not of exact arithmetic: 18.40% of 375
    lines is 69 lines, and the record counts 68. *)
Lemma extraction_overflow_no_record :
  (has_file_line (stdout huge_total_output +:+ stderr huge_total_output)
   /\ has_coverage_line (stdout huge_total_output +:+ stderr huge_total_output)
   /\ parse_gcov_output (Ok huge_total_output) = Ok None)
  /\ (has_file_line (stdout long_total_output +:+ stderr long_total_output)
      /\ has_coverage_line
           (stdout long_total_output +:+ stderr long_total_output)
      /\ re_search coverage_re
           (stdout long_total_output +:+ stderr long_total_output)
         = Some ["50"; "00"; padded_forty]
      /\ int_of_digits padded_forty = 40
      /\ parse_gcov_output (Ok long_total_output) = Ok None)
  /\ (parse_gcov_output (Ok (on_stdout (gcov_text "a.c" "18.40" "375"))) =
      Ok (Some {| file := "a.c"; percentage := of_decimal 1840 2;
                  covered := 68; total := 375 |})
      /\ 375 * 1840 / (100 * 100) = 69).
Proof.
  split; [split; [|split]|split; [split; [|split; [|split; [|split]]]|split]].
  - eapply has_file_line_of_search. vm_compute. reflexivity.
  - eapply has_coverage_line_of_search. vm_compute. reflexivity.
  - vm_compute. reflexivity.
  - eapply has_file_line_of_search. vm_compute. reflexivity.
  - eapply has_coverage_line_of_search. vm_compute. reflexivity.
  - vm_compute. reflexivity.
  - vm_compute. reflexivity.
  - vm_compute. reflexivity.
  - vm_compute. reflexivity.
  - reflexivity.
Qed.

(** C2. Extraction never raises; when the subprocess call raises, or the
    combined output lacks one of the two required lines (so that one of the
    patterns does not match), it returns no record. *)
Theorem extraction_fails_silently (run : result completed) :
  (exists v, parse_gcov_output run = Ok v)
  /\ ((exists e, run = Raise e)
      \/ (exists r, run = Ok r
          /\ (re_search file_re (stdout r +:+ stderr r) = None
              \/ re_search coverage_re (stdout r +:+ stderr r) = None
              \/ ~ has_file_line (stdout r +:+ stderr r)
              \/ ~ has_coverage_line (stdout r +:+ stderr r))) ->
      parse_gcov_output run = Ok None).
Proof.
  split.
  - unfold parse_gcov_output. destruct (parse_body run); eauto.
  - intros [(e & ->)|(r & -> & H)]; [reflexivity|].
    destruct (parse_gcov_output (Ok r)) as [[d|]|e] eqn:Hp; [| reflexivity |].
    + exfalso. apply parse_some_inv in Hp
        as (r' & filename & ip & fp & tot & [= <-] & Hf & Hc & _).
      destruct H as [H|[H|[H|H]]]; try congruence.
      * apply H. eapply has_file_line_of_search. exact Hf.
      * apply H. eapply has_coverage_line_of_search. exact Hc.
    + exfalso. unfold parse_gcov_output in Hp.
      destruct (parse_body (Ok r)); discriminate.
Qed.

Lemma extraction_fails_silently_witness :
  parse_gcov_output (Raise (OtherException "FileNotFoundError")) = Ok None
  /\ parse_gcov_output (Ok no_file_output) = Ok None.
Proof.
  split.
  - apply (extraction_fails_silently (Raise (OtherException "FileNotFoundError"))).
    left. eexists. reflexivity.
  - apply (extraction_fails_silently (Ok no_file_output)).
    right. exists no_file_output. split; [reflexivity|].
    left. vm_compute. reflexivity.
Defined.

(** C9 (amended). Every record that extraction returns has a non-negative
    percentage, covered count and total, and its covered count is at most its
    total whenever the percentage is at most 100 and the total is below
    [2^52]. No upper bound is checked: an output that reports 200.0% of 10
    lines gives a record with 20 covered lines. *)
Theorem record_fields_bounds :
  (forall run d,
      parse_gcov_output run = Ok (Some d) ->
      fle (Fin 0) (percentage d) = true
      /\ 0 <= covered d
      /\ 0 <= total d
      /\ (fle (percentage d) hundred = true -> total d < 2 ^ 52 ->
          covered d <= total d))
  /\ (exists d,
        parse_gcov_output (Ok double_output) = Ok (Some d)
        /\ flt hundred (percentage d) = true
        /\ total d < covered d).
Proof.
  split.
  - intros run d H.
    destruct (parse_some_fields run d H) as (HT & Hp & Hfl).
    destruct (floor_percent_bound _ _ _ HT Hp Hfl) as [Hc (pn & Hpn & Hpos)].
    rewrite Hpn in *. repeat split; try lia.
    + simpl. apply negb_true_iff, Z.ltb_ge. exact Hpos.
    + intros Hle Hlt.
      assert (Hpn' : 0 <= pn <= 100 * unit).
      { split; [exact Hpos|].
        unfold fle, hundred, of_small, flt in Hle.
        apply negb_true_iff, Z.ltb_ge in Hle. exact Hle. }
      apply (covered_le_total (total d) pn (covered d)); auto.
  - eexists. split; [vm_compute; reflexivity|].
    split; vm_compute; reflexivity.
Qed.

Lemma record_fields_bounds_witness :
  covered {| file := "src/core/engine.c"; percentage := of_small 75;
             covered := 30; total := 40 |}
  <= total {| file := "src/core/engine.c"; percentage := of_small 75;
              covered := 30; total := 40 |}.
Proof.
  apply (proj1 record_fields_bounds (Ok engine_output)).
  - vm_compute. reflexivity.
  - vm_compute. reflexivity.
  - reflexivity.
Defined.

(** C9, as stated, fails twice: at 100.0% of [2^53 + 3] lines the covered
    count exceeds the total although the percentage is not above 100, and at
    100.5% of one line the percentage is above 100 and the covered count does
    not exceed the total. *)
Lemma record_bounds_counterexample :
  (exists d,
      parse_gcov_output (Ok rounded_total_output) = Ok (Some d)
      /\ fle (percentage d) hundred = true
      /\ total d = 9007199254740995
      /\ covered d = 9007199254740996)
  /\ (exists d,
        parse_gcov_output (Ok above_hundred_output) = Ok (Some d)
        /\ flt hundred (percentage d) = true
        /\ total d = 1
        /\ covered d = 1).
Proof.
  split; eexists; (split; [vm_compute; reflexivity|]);
    repeat split; vm_compute; reflexivity.
Qed.



End ExtractionClaims.

(** ** The stable sort *)

Section SortedProperties.
Context {A K : Type} (lt : K -> K -> bool) (key : A -> K) (dom : K -> Prop).
Hypothesis lt_irrefl : forall a, dom a -> lt a a = false.
Hypothesis lt_trans :
  forall a b c, dom a -> dom b -> dom c ->
    lt a b = true -> lt b c = true -> lt a c = true.
Hypothesis lt_incomparable :
  forall a b c, dom a -> dom b -> dom c ->
    lt a b = false -> lt b c = false -> lt a c = false.

Lemma lt_asym a b : dom a -> dom b -> lt a b = true -> lt b a = false.
Proof.
  intros Ha Hb Hab. destruct (lt b a) eqn:Hba; [|reflexivity].
  rewrite <- (lt_irrefl a Ha). symmetry. apply (lt_trans a b a); auto.
Qed.

Lemma insert_sorted_perm x l : insert_sorted lt key x l ≡ₚ x :: l.
Proof.
  induction l as [|y l IH]; simpl; [reflexivity|].
  destruct (lt (key y) (key x)); [|reflexivity].
  rewrite IH. apply Permutation_swap.
Qed.

Lemma sort_stable_perm l : sort_stable lt key l ≡ₚ l.
Proof.
  induction l as [|x l IH]; simpl; [reflexivity|].
  rewrite insert_sorted_perm, IH. reflexivity.
Qed.

Lemma sorted_perm reverse l : sorted lt key reverse l ≡ₚ l.
Proof.
  unfold sorted. destruct reverse; [|apply sort_stable_perm].
  rewrite <- Permutation_rev, sort_stable_perm, <- Permutation_rev. reflexivity.
Qed.

Lemma insert_sorted_ascending x l :
  dom (key x) -> Forall (fun y => dom (key y)) l ->
  ascending lt key l -> ascending lt key (insert_sorted lt key x l).
Proof.
  unfold ascending. intros Hx Hl Hs.
  induction l as [|y l IH]; simpl.
  - repeat constructor.
  - apply Forall_cons in Hl as [Hy Hl].
    apply StronglySorted_cons in Hs as [Hyl Hs].
    destruct (lt (key y) (key x)) eqn:Hyx.
    + apply StronglySorted_cons. split; [|apply IH; assumption].
      rewrite insert_sorted_perm. constructor; [|exact Hyl].
      apply lt_asym; assumption.
    + apply StronglySorted_cons. split.
      * constructor; [exact Hyx|].
        rewrite Forall_forall in Hyl, Hl |- *. intros z Hz.
        apply (lt_incomparable (key z) (key y) (key x)); auto.
      * apply StronglySorted_cons. auto.
Qed.

Lemma sort_stable_dom l :
  Forall (fun y => dom (key y)) l ->
  Forall (fun y => dom (key y)) (sort_stable lt key l).
Proof. intros H. rewrite sort_stable_perm. exact H. Qed.

Lemma sort_stable_ascending l :
  Forall (fun y => dom (key y)) l -> ascending lt key (sort_stable lt key l).
Proof.
  induction l as [|x l IH]; intros Hl; simpl.
  - constructor.
  - apply Forall_cons in Hl as [Hx Hl].
    apply insert_sorted_ascending; auto using sort_stable_dom.
Qed.

(** Inserting an element does not move it across an element tied with it. *)
Lemma insert_sorted_stable k x l :
  dom k -> dom (key x) -> Forall (fun y => dom (key y)) l ->
  filter (tied lt key k) (insert_sorted lt key x l)
  = filter (tied lt key k) (x :: l).
Proof.
  intros Hk Hx Hl. induction l as [|y l IH]; simpl; [reflexivity|].
  apply Forall_cons in Hl as [Hy Hl].
  destruct (lt (key y) (key x)) eqn:Hyx; [|reflexivity].
  rewrite filter_cons, (IH Hl), !filter_cons.
  destruct (decide (tied lt key k y)) as [[Hy1 Hy2]|]; [|reflexivity].
  destruct (decide (tied lt key k x)) as [[Hx1 Hx2]|]; [|reflexivity].
  rewrite (lt_incomparable (key y) k (key x)) in Hyx by auto. discriminate.
Qed.

Lemma sort_stable_stable k l :
  dom k -> Forall (fun y => dom (key y)) l ->
  filter (tied lt key k) (sort_stable lt key l) = filter (tied lt key k) l.
Proof.
  intros Hk. induction l as [|x l IH]; intros Hl; simpl; [reflexivity|].
  apply Forall_cons in Hl as [Hx Hl].
  rewrite insert_sorted_stable by auto using sort_stable_dom.
  rewrite !filter_cons, (IH Hl). reflexivity.
Qed.

Lemma filter_rev (P : A -> Prop) `{!forall x, Decision (P x)} (l : list A) :
  filter P (rev l) = rev (filter P l).
Proof. rewrite !rev_alt. apply filter_reverse. Qed.

Lemma strongly_sorted_rev (R : A -> A -> Prop) (l : list A) :
  StronglySorted R l -> StronglySorted (fun a b => R b a) (rev l).
Proof.
  induction 1 as [|x l Hs IH Hx]; simpl; [constructor|].
  apply StronglySorted_app. split; [|split].
  - intros a b Ha Hb. apply list_elem_of_singleton in Hb as ->.
    rewrite Forall_forall in Hx. apply Hx.
    apply list_elem_of_In, in_rev, list_elem_of_In. exact Ha.
  - exact IH.
  - repeat constructor.
Qed.

(** [sorted]: a permutation, in order, that keeps tied elements in their
    input order, in both directions. *)
Lemma sorted_ascending l :
  Forall (fun y => dom (key y)) l -> ascending lt key (sorted lt key false l).
Proof. apply sort_stable_ascending. Qed.

Lemma sorted_descending l :
  Forall (fun y => dom (key y)) l -> descending lt key (sorted lt key true l).
Proof.
  intros Hl. unfold descending, sorted.
  apply (strongly_sorted_rev (fun a b => lt (key b) (key a) = false)).
  apply sort_stable_ascending.
  rewrite <- Permutation_rev. exact Hl.
Qed.

Lemma sorted_stable reverse k l :
  dom k -> Forall (fun y => dom (key y)) l ->
  filter (tied lt key k) (sorted lt key reverse l) = filter (tied lt key k) l.
Proof.
  intros Hk Hl. unfold sorted. destruct reverse.
  - rewrite filter_rev, sort_stable_stable, filter_rev, rev_involutive;
      [reflexivity|exact Hk|].
    rewrite <- Permutation_rev. exact Hl.
  - apply sort_stable_stable; assumption.
Qed.

(** A list has one stable sort: any permutation of it that is in ascending
    order and keeps tied elements in their order is that permutation. So the
    result of [sorted] does not depend on the sorting algorithm. *)
Lemma stable_sort_unique l1 l2 :
  Forall (fun y => dom (key y)) l1 ->
  l1 ≡ₚ l2 -> ascending lt key l1 -> ascending lt key l2 ->
  (forall k, dom k ->
     filter (tied lt key k) l1 = filter (tied lt key k) l2) ->
  l1 = l2.
Proof.
  revert l2. induction l1 as [|x l1 IH]; intros l2 Hd Hp H1 H2 Hf.
  - apply Permutation_nil_l in Hp. congruence.
  - destruct l2 as [|y l2]; [apply Permutation_nil_r in Hp; discriminate|].
    apply Forall_cons in Hd as [Hx Hd].
    assert (Hy : dom (key y)).
    { assert (Hin : y ∈ x :: l1) by (rewrite Hp; left).
      apply elem_of_cons in Hin as [->|Hin]; [exact Hx|].
      rewrite Forall_forall in Hd. auto. }
    apply StronglySorted_cons in H1 as [Hx1 H1].
    apply StronglySorted_cons in H2 as [Hy2 H2].
    assert (Hxy : x = y).
    { assert (Hty : tied lt key (key x) y).
      { assert (Hin : y ∈ x :: l1) by (rewrite Hp; left).
        assert (Hin' : x ∈ y :: l2) by (rewrite <- Hp; left).
        apply elem_of_cons in Hin as [->|Hin];
          [split; apply lt_irrefl; exact Hx|].
        apply elem_of_cons in Hin' as [->|Hin'];
          [split; apply lt_irrefl; exact Hx|].
        rewrite Forall_forall in Hx1, Hy2. split; auto. }
      assert (Htx : tied lt key (key x) x) by (split; apply lt_irrefl, Hx).
      pose proof (Hf (key x) Hx) as Hfx.
      rewrite !filter_cons in Hfx.
      destruct (decide (tied lt key (key x) x)); [|contradiction].
      destruct (decide (tied lt key (key x) y)); [|contradiction].
      congruence. }
    subst y. f_equal. apply IH; auto.
    + eapply Permutation_cons_inv. exact Hp.
    + intros k Hk. pose proof (Hf k Hk) as Hfk.
      rewrite !filter_cons in Hfk.
      destruct (decide (tied lt key k x)); congruence.
Qed.

Lemma sorted_unique l l' :
  Forall (fun y => dom (key y)) l ->
  l' ≡ₚ l -> ascending lt key l' ->
  (forall k, dom k ->
     filter (tied lt key k) l' = filter (tied lt key k) l) ->
  l' = sorted lt key false l.
Proof.
  intros Hd Hp Ha Hf. apply stable_sort_unique.
  - rewrite Hp. exact Hd.
  - rewrite Hp. symmetry. apply sorted_perm.
  - exact Ha.
  - apply sorted_ascending. exact Hd.
  - intros k Hk. rewrite sorted_stable by assumption. auto.
Qed.

End SortedProperties.

(** ** Order of doubles *)

Section FloatOrder.

Lemma flt_irrefl a : not_nan a -> flt a a = false.
Proof.
  intros _. destruct a as [n|[]|]; simpl; auto using Z.ltb_irrefl.
Qed.

Lemma flt_trans a b c :
  not_nan a -> not_nan b -> not_nan c ->
  flt a b = true -> flt b c = true -> flt a c = true.
Proof.
  intros _ _ _.
  destruct a as [x|[]|], b as [y|[]|], c as [z|[]|]; simpl;
    try discriminate; try reflexivity.
  rewrite !Z.ltb_lt. lia.
Qed.

Lemma flt_incomparable a b c :
  not_nan a -> not_nan b -> not_nan c ->
  flt a b = false -> flt b c = false -> flt a c = false.
Proof.
  unfold not_nan.
  destruct a as [x|[]|], b as [y|[]|], c as [z|[]|]; simpl;
    try discriminate; try reflexivity; try congruence.
  rewrite !Z.ltb_ge. lia.
Qed.

Lemma tied_feq k x :
  not_nan k -> not_nan x ->
  tied flt id k x <-> feq x k = true.
Proof.
  unfold tied, not_nan, feq, id.
  destruct k as [a|[]|], x as [b|[]|]; simpl; try congruence;
    rewrite ?andb_true_iff, ?negb_true_iff; intuition congruence.
Qed.

End FloatOrder.

(** ** Printing *)

Section Printing.

Lemma for_each_print {A} (f : A -> line) (l : list A) :
  for_each l (fun x => print (f x)) = (map f l, Ok tt).
Proof.
  induction l as [|x l IH]; [reflexivity|].
  simpl. rewrite IH. reflexivity.
Qed.

Lemma report_top_files_lines coverage_data :
  report_top_files coverage_data =
  (Text "Top 10 Best Covered Files:" :: Rule "-"
     :: map file_row (top_files coverage_data), Ok tt).
Proof.
  unfold report_top_files. rewrite for_each_print. reflexivity.
Qed.

End Printing.

(** ** The two file tables *)

Section Tables.

Lemma filter_feq_tied k (l : list coverage) :
  not_nan k -> Forall (fun d => not_nan (percentage d)) l ->
  filter (fun d => feq (percentage d) k = true) l
  = filter (tied flt percentage k) l.
Proof.
  intros Hk Hl. induction l as [|d l IH]; [reflexivity|].
  apply Forall_cons in Hl as [Hd Hl].
  rewrite !filter_cons, (IH Hl).
  pose proof (tied_feq k (percentage d) Hk Hd) as Hiff.
  unfold tied, id in Hiff.
  destruct (decide (feq (percentage d) k = true));
    destruct (decide (tied flt percentage k d)) as [Ht|Ht];
    unfold tied in Ht; tauto.
Qed.

(** The top-10 table of any records whose percentages are numbers. *)
Lemma top_files_of_numbers (coverage_data : list coverage) :
  Forall (fun d => not_nan (percentage d)) coverage_data ->
  exists ranked,
    top_files coverage_data = take 10 ranked
    /\ ranked ≡ₚ coverage_data
    /\ descending flt percentage ranked
    /\ (forall k, not_nan k ->
        filter (fun d => feq (percentage d) k = true) ranked
        = filter (fun d => feq (percentage d) k = true) coverage_data)
    /\ (length (top_files coverage_data) <= 10)%nat
    /\ report_top_files coverage_data =
       (Text "Top 10 Best Covered Files:" :: Rule "-"
          :: map file_row (top_files coverage_data), Ok tt).
Proof.
  intros Hd. exists (sorted flt percentage true coverage_data).
  split; [reflexivity|].
  split; [apply sorted_perm|].
  split; [apply (sorted_descending flt percentage not_nan
                   flt_irrefl flt_trans flt_incomparable); exact Hd|].
  split; [|split].
  - intros k Hk. rewrite !filter_feq_tied; auto.
    + apply (sorted_stable flt percentage not_nan flt_incomparable); auto.
    + rewrite sorted_perm. exact Hd.
  - unfold top_files. rewrite length_take. lia.
  - apply report_top_files_lines.
Qed.

Lemma sample_data_not_nan :
  Forall (fun d => not_nan (percentage d)) sample_data.
Proof. repeat constructor; discriminate. Qed.

Example top_files_sample :
  top_files sample_data = [engine_record; logger_record; combat_record].
Proof. vm_compute. reflexivity. Qed.

Lemma report_low_coverage_lines coverage_data :
  report_low_coverage coverage_data =
  match low_coverage coverage_data with
  | [] => ([Text "All files have >50% coverage!"], Ok tt)
  | _ :: _ =>
      (LowHeader (length (low_coverage coverage_data)) :: Rule "-"
         :: map file_row
              (take 15 (sorted flt percentage false
                          (low_coverage coverage_data))),
       Ok tt)
  end.
Proof.
  unfold report_low_coverage.
  destruct (low_coverage coverage_data) as [|d l] eqn:E; [reflexivity|].
  rewrite for_each_print.
  assert (Hlen : length (sorted flt percentage false (d :: l))
                 = length (d :: l)).
  { apply Permutation_length, sorted_perm. }
  cbn [mbind io_bind print]. rewrite Hlen. reflexivity.
Qed.

(** The needs-improvement list of any records whose percentages are
    numbers. *)
Lemma low_coverage_of_numbers (coverage_data : list coverage) :
  Forall (fun d => not_nan (percentage d)) coverage_data ->
  (forall d, d ∈ low_coverage coverage_data <->
             d ∈ coverage_data /\ flt (percentage d) (of_small 50) = true)
  /\ (low_coverage coverage_data = [] ->
      report_low_coverage coverage_data =
      ([Text "All files have >50% coverage!"], Ok tt))
  /\ (low_coverage coverage_data <> [] ->
      exists ranked,
        ranked ≡ₚ low_coverage coverage_data
        /\ ascending flt percentage ranked
        /\ (forall k, not_nan k ->
            filter (fun d => feq (percentage d) k = true) ranked
            = filter (fun d => feq (percentage d) k = true)
                (low_coverage coverage_data))
        /\ (length (take 15 ranked) <= 15)%nat
        /\ report_low_coverage coverage_data =
           (LowHeader (length (low_coverage coverage_data)) :: Rule "-"
              :: map file_row (take 15 ranked), Ok tt)).
Proof.
  intros Hd.
  assert (Hlow : Forall (fun d => not_nan (percentage d))
                   (low_coverage coverage_data)).
  { unfold low_coverage. rewrite Forall_forall in Hd |- *.
    intros d Hin. apply list_elem_of_filter in Hin as [_ Hin]. auto. }
  split; [|split].
  - intros d. unfold low_coverage, fifty. rewrite list_elem_of_filter. tauto.
  - intros Hnil. rewrite report_low_coverage_lines, Hnil. reflexivity.
  - intros Hne.
    exists (sorted flt percentage false (low_coverage coverage_data)).
    split; [apply sorted_perm|].
    split; [apply (sorted_ascending flt percentage not_nan
                     flt_irrefl flt_trans flt_incomparable); exact Hlow|].
    split; [|split].
    + intros k Hk. rewrite !filter_feq_tied; auto.
      * apply (sorted_stable flt percentage not_nan flt_incomparable); auto.
      * rewrite sorted_perm. exact Hlow.
    + rewrite length_take. lia.
    + rewrite report_low_coverage_lines.
      destruct (low_coverage coverage_data); [congruence|reflexivity].
Qed.

End Tables.

(** ** Claims on the aggregation *)

Section AggregationClaims.

Lemma contains_substring sub s :
  contains sub s = true <-> exists pre post, s = pre +:+ sub +:+ post.
Proof.
  assert (Hpre : forall t, String.prefix sub t = true <->
                           exists post, t = sub +:+ post).
  { induction sub as [|c sub IH]; intros t.
    - destruct t; simpl; split; eauto.
    - destruct t as [|d t]; simpl.
      + split; [discriminate|intros (post & H); discriminate].
      + destruct (ascii_dec c d) as [->|Hne].
        * rewrite IH. split; intros (post & H); exists post.
          -- rewrite append_cons. congruence.
          -- rewrite append_cons in H. congruence.
        * split; [discriminate|].
          intros (post & H). rewrite append_cons in H. congruence. }
  induction s as [|c s IH].
  - cbn [contains]. rewrite orb_false_r, Hpre. split.
    + intros (post & H). exists "", post. exact H.
    + intros (pre & post & H). destruct pre; [eauto|discriminate].
  - cbn [contains]. rewrite orb_true_iff, Hpre, IH. split.
    + intros [(post & H)|(pre & post & H)].
      * exists "", post. exact H.
      * exists (String c pre), post. rewrite append_cons. congruence.
    + intros (pre & post & H). destruct pre as [|d pre].
      * left. exists post. exact H.
      * right. rewrite append_cons in H. injection H as _ H. eauto.
Qed.

(** C3. Classification is total: every path gets the label of the first rule,
    in the order of the specification, one of whose fragments it contains,
    and [Other] when there is none; the label is one of eleven. *)
Theorem category_of_first_rule (file_path : string) :
  category_of file_path = first_rule category_rules file_path
  /\ category_of file_path ∈ category_labels
  /\ length category_labels = 11%nat
  /\ NoDup category_labels.
Proof.
  split; [|split; [|split]].
  - unfold category_of, category_rules. cbn [first_rule existsb].
    rewrite !orb_false_r.
    repeat (match goal with
            | |- context [contains ?f file_path] =>
                destruct (contains f file_path); cbn [orb]; try reflexivity
            end).
  - unfold category_of, category_labels, category_rules. cbn [map snd app].
    repeat (match goal with
            | |- context [contains ?f file_path] =>
                destruct (contains f file_path); cbn [orb]
            end); set_solver.
  - reflexivity.
  - unfold category_labels, category_rules. cbn [map snd app].
    apply (bool_decide_unpack _). vm_compute. reflexivity.
Qed.

End AggregationClaims.

Section CategorySums.

Lemma sum_stats_insert_fresh f k s (m : gmap string stats) :
  m !! k = None -> sum_stats f (<[k:=s]> m) = f s + sum_stats f m.
Proof.
  intros Hk. unfold sum_stats.
  rewrite map_fold_insert_L; [reflexivity| |exact Hk].
  intros. lia.
Qed.

Lemma sum_stats_delete f k s (m : gmap string stats) :
  m !! k = Some s -> sum_stats f m = f s + sum_stats f (delete k m).
Proof.
  intros Hk. unfold sum_stats.
  rewrite (map_fold_delete_L _ _ k s m); [reflexivity| |exact Hk].
  intros. lia.
Qed.

(** Replacing a bucket changes the sum by the difference of the buckets. *)
Lemma sum_stats_insert f k s (m : gmap string stats) :
  f no_stats = 0 ->
  sum_stats f (<[k:=s]> m)
  = sum_stats f m + f s - f (default no_stats (m !! k)).
Proof.
  intros H0. destruct (m !! k) as [old|] eqn:Hk; simpl.
  - rewrite <- insert_delete_eq.
    rewrite sum_stats_insert_fresh by apply lookup_delete_eq.
    rewrite (sum_stats_delete f k old m Hk). lia.
  - rewrite sum_stats_insert_fresh by exact Hk. lia.
Qed.

Lemma sum_stats_add_record_covered m d :
  sum_stats st_covered (add_record m d) = sum_stats st_covered m + covered d.
Proof.
  unfold add_record. rewrite sum_stats_insert by reflexivity. simpl. lia.
Qed.

Lemma sum_stats_add_record_total m d :
  sum_stats st_total (add_record m d) = sum_stats st_total m + total d.
Proof.
  unfold add_record. rewrite sum_stats_insert by reflexivity. simpl. lia.
Qed.

Lemma sum_stats_fold m coverage_data :
  sum_stats st_covered (fold_left add_record coverage_data m)
  = sum_stats st_covered m + sum_by covered coverage_data
  /\ sum_stats st_total (fold_left add_record coverage_data m)
     = sum_stats st_total m + sum_by total coverage_data.
Proof.
  revert m. induction coverage_data as [|d l IH]; intros m; simpl.
  - lia.
  - destruct (IH (add_record m d)) as [-> ->].
    rewrite sum_stats_add_record_covered, sum_stats_add_record_total.
    unfold sum_by. lia.
Qed.

(** C8. Grouping by category partitions the overall sums: a record changes
    the bucket of its own category only, by its covered count and its total,
    and the buckets of all the categories add up to the overall covered count
    and to the overall total. *)
Theorem categories_partition_totals (coverage_data : list coverage) :
  sum_stats st_covered (group_by_category coverage_data)
  = sum_by covered coverage_data
  /\ sum_stats st_total (group_by_category coverage_data)
     = sum_by total coverage_data
  /\ (forall (categories : gmap string stats) (data : coverage),
        add_record categories data !! category_of (file data)
        = Some {| st_covered :=
                    st_covered (default no_stats
                                  (categories !! category_of (file data)))
                    + covered data;
                  st_total :=
                    st_total (default no_stats
                                (categories !! category_of (file data)))
                    + total data |}
        /\ (forall category,
              category <> category_of (file data) ->
              add_record categories data !! category
              = categories !! category)).
Proof.
  unfold group_by_category.
  destruct (sum_stats_fold ∅ coverage_data) as [Hc Ht].
  rewrite Hc, Ht. unfold sum_stats. rewrite !map_fold_empty.
  split; [lia|]. split; [lia|].
  intros categories data. unfold add_record. split.
  - apply lookup_insert_eq.
  - intros category Hne. apply lookup_insert_ne. congruence.
Qed.

(** C4. The percentage of an aggregate whose total is zero is the integer 0,
    without a division: for the overall figures of any record list, the empty
    one included, and for the bucket of any category. *)
Theorem zero_total_gives_zero (coverage_data : list coverage) (s : stats) :
  (sum_by total coverage_data = 0 ->
   overall_percentage coverage_data = Ok (PyInt 0))
  /\ overall_percentage [] = Ok (PyInt 0)
  /\ (st_total s = 0 -> category_percentage s = Ok (PyInt 0)).
Proof.
  unfold overall_percentage, category_percentage, percent_of.
  split; [|split].
  - intros ->. reflexivity.
  - reflexivity.
  - intros ->. reflexivity.
Qed.

Lemma zero_total_gives_zero_witness :
  overall_percentage
    [ {| file := "src/empty.c"; percentage := of_small 0;
         covered := 0; total := 0 |} ] = Ok (PyInt 0)
  /\ category_percentage no_stats = Ok (PyInt 0).
Proof.
  split.
  - apply (zero_total_gives_zero
             [ {| file := "src/empty.c"; percentage := of_small 0;
                  covered := 0; total := 0 |} ] no_stats).
    reflexivity.
  - apply (zero_total_gives_zero [] no_stats). reflexivity.
Defined.

End CategorySums.

(** ** The run of [main] *)

Section Main.

Lemma parse_never_raises run : exists v, parse_gcov_output run = Ok v.
Proof. unfold parse_gcov_output. destruct (parse_body run); eauto. Qed.

Lemma parse_record_ok run d :
  parse_gcov_output run = Ok (Some d) -> record_ok d.
Proof.
  intros H. destruct (parse_some_fields run d H) as (HT & Hp & Hfl).
  destruct (floor_percent_bound _ _ _ HT Hp Hfl) as [Hc (pn & Hpn & _)].
  unfold record_ok, not_nan. rewrite Hpn. repeat split; try lia. discriminate.
Qed.

Lemma parse_all_ok run gcda_files :
  exists coverage_data,
    parse_all run gcda_files = Ok coverage_data
    /\ Forall record_ok coverage_data.
Proof.
  induction gcda_files as [|f l (data & IH & Hok)]; simpl.
  - exists []. split; [reflexivity|constructor].
  - destruct (parse_never_raises (run f)) as (v & Hv).
    rewrite Hv, IH. cbn [mbind result_bind].
    destruct v as [d|]; eexists; (split; [reflexivity|]); [|exact Hok].
    constructor; [|exact Hok]. apply (parse_record_ok (run f)). exact Hv.
Qed.

Lemma record_ok_not_nan coverage_data :
  Forall record_ok coverage_data ->
  Forall (fun d => not_nan (percentage d)) coverage_data.
Proof.
  intros H. eapply Forall_impl; [exact H|]. intros d (_ & _ & Hd). exact Hd.
Qed.

(** The true division of a covered sum by a positive total never overflows. *)
Lemma int_truediv_ok c t :
  0 < t -> 0 <= c <= 2 ^ 1018 * t -> exists q, int_truediv c t = Ok (Fin q).
Proof.
  intros Ht Hc. unfold int_truediv. pose proof unit_pos as HU.
  destruct (t =? 0) eqn:E0; [apply Z.eqb_eq in E0; lia|].
  destruct (t <? 0) eqn:E1; [apply Z.ltb_lt in E1; lia|].
  rewrite round_units_nonneg by nia.
  assert (Hlt : c * unit < t * 2 ^ 2093).
  { change (2 ^ 2093) with (2 * (2 ^ 1018 * unit)).
    assert (0 < 2 ^ 1018) by reflexivity. nia. }
  destruct (round_mag_finite (c * unit) t 2093 ltac:(nia) Ht ltac:(lia) Hlt)
    as [-> _].
  eexists. reflexivity.
Qed.

Lemma percent_of_ok c t :
  0 <= c <= 2 ^ 1018 * t -> exists p, percent_of c t = Ok p.
Proof.
  intros Hc. unfold percent_of.
  destruct (0 <? t) eqn:E; [|eexists; reflexivity].
  apply Z.ltb_lt in E. destruct (int_truediv_ok c t E Hc) as (q & ->).
  eexists. reflexivity.
Qed.

Lemma sum_by_ok coverage_data :
  Forall record_ok coverage_data ->
  0 <= sum_by covered coverage_data
       <= 2 ^ 1018 * sum_by total coverage_data.
Proof.
  induction 1 as [|d l (Ht & Hc & _) _ IH]; simpl; lia.
Qed.

Lemma add_record_ok (m : gmap string stats) d :
  map_Forall (fun _ => stats_ok) m -> record_ok d ->
  map_Forall (fun _ => stats_ok) (add_record m d).
Proof.
  intros Hm (Ht & Hc & _). unfold add_record.
  apply map_Forall_insert_2; [|exact Hm].
  assert (Hs : stats_ok (default no_stats (m !! category_of (file d)))).
  { destruct (m !! category_of (file d)) as [s|] eqn:E; simpl.
    - apply (Hm _ _ E).
    - unfold stats_ok, no_stats. simpl. lia. }
  unfold stats_ok in *. simpl. lia.
Qed.

Lemma fold_add_record_ok coverage_data (m : gmap string stats) :
  map_Forall (fun _ => stats_ok) m -> Forall record_ok coverage_data ->
  map_Forall (fun _ => stats_ok) (fold_left add_record coverage_data m).
Proof.
  intros Hm Hd. revert m Hm.
  induction Hd as [|d l Hd _ IH]; intros m Hm; simpl; [exact Hm|].
  apply IH, add_record_ok; assumption.
Qed.

Lemma group_by_category_ok coverage_data :
  Forall record_ok coverage_data ->
  map_Forall (fun _ => stats_ok) (group_by_category coverage_data).
Proof.
  intros Hd. apply fold_add_record_ok; [apply map_Forall_empty|exact Hd].
Qed.

Lemma for_each_returns {A} (l : list A) (body : A -> io ()) :
  (forall x, exists o, body x = (o, Ok tt)) ->
  exists o, for_each l body = (o, Ok tt).
Proof.
  intros Hb. induction l as [|x l (o & IH)]; simpl.
  - eexists. reflexivity.
  - destruct (Hb x) as (o1 & ->). rewrite IH. eexists. reflexivity.
Qed.

Lemma report_categories_returns (categories : gmap string stats) :
  map_Forall (fun _ => stats_ok) categories ->
  exists rows, report_categories categories = (rows, Ok tt).
Proof.
  intros Hm. unfold report_categories. apply for_each_returns.
  intros category.
  assert (Hs : stats_ok (default no_stats (categories !! category))).
  { destruct (categories !! category) as [s|] eqn:E; simpl.
    - apply (Hm _ _ E).
    - unfold stats_ok, no_stats. simpl. lia. }
  destruct (percent_of_ok _ _ Hs) as (p & Hp).
  unfold category_percentage. rewrite Hp. eexists. reflexivity.
Qed.

Lemma report_low_coverage_returns coverage_data :
  exists rows, report_low_coverage coverage_data = (rows, Ok tt).
Proof.
  rewrite report_low_coverage_lines.
  destruct (low_coverage coverage_data); eexists; reflexivity.
Qed.

(** The full report: what [main] prints once some record was parsed. *)
Lemma main_full_report w coverage_data :
  find_gcda w <> [] ->
  parse_all (gcov w) (find_gcda w) = Ok coverage_data ->
  coverage_data <> [] ->
  Forall record_ok coverage_data ->
  exists overall rows low,
    percent_of (sum_by covered coverage_data) (sum_by total coverage_data)
    = Ok overall
    /\ report_categories (group_by_category coverage_data) = (rows, Ok tt)
    /\ report_low_coverage coverage_data = (low, Ok tt)
    /\ main w =
       (banner
        ++ [Found (length (find_gcda w)); Blank;
            Overall overall;
            CoveredOf (sum_by covered coverage_data)
                      (sum_by total coverage_data);
            Blank;
            Text "Coverage by Category:"; Rule "-";
            Text (ljust 30 "Category" +:+ " " +:+ ljust 15 "Coverage"
                  +:+ " " +:+ ljust 20 "Lines");
            Rule "-"]
        ++ rows
        ++ [Blank; Text "Top 10 Best Covered Files:"; Rule "-"]
        ++ map file_row (top_files coverage_data)
        ++ [Blank]
        ++ low
        ++ closing,
        Ok tt).
Proof.
  intros Hfiles Hparse Hne Hok.
  destruct (percent_of_ok _ _ (sum_by_ok _ Hok)) as (overall & Hov).
  destruct (report_categories_returns _ (group_by_category_ok _ Hok))
    as (rows & Hrows).
  destruct (report_low_coverage_returns coverage_data) as (low & Hlow).
  exists overall, rows, low.
  split; [exact Hov|]. split; [exact Hrows|]. split; [exact Hlow|].
  unfold main. destruct (find_gcda w) as [|f fs] eqn:Ef; [congruence|].
  rewrite Hparse. destruct coverage_data as [|d ds]; [congruence|].
  cbn [lift mbind io_bind]. unfold lift.
  rewrite Hov, Hrows, Hlow, report_top_files_lines.
  unfold lift, print, banner, closing.
  cbv beta iota delta [mbind io_bind]. cbn [app].
  rewrite <- ?app_assoc. reflexivity.
Qed.

Lemma main_no_artifacts w :
  find_gcda w = [] ->
  main w =
  (banner ++ [Text "No coverage data found. Run 'make coverage' first."],
   Ok tt).
Proof. intros H. unfold main. rewrite H. reflexivity. Qed.

Lemma main_nothing_parsed w :
  find_gcda w <> [] ->
  parse_all (gcov w) (find_gcda w) = Ok [] ->
  main w =
  (banner ++ [Found (length (find_gcda w)); Blank;
              Text "Could not parse coverage data"],
   Ok tt).
Proof.
  intros Hfiles Hparse. unfold main.
  destruct (find_gcda w) as [|f fs] eqn:Ef; [congruence|].
  rewrite Hparse. reflexivity.
Qed.

(** C7. On each of its three paths, no artifact, no parsable artifact and the
    full report, [main] returns without raising and the exit status is 0: no
    division of the aggregation can fail on records that extraction
    produced. *)
Theorem main_always_succeeds (w : world) :
  returns (main w)
  /\ exit_status (main w) = 0
  /\ (find_gcda w = [] ->
      main w =
      (banner ++ [Text "No coverage data found. Run 'make coverage' first."],
       Ok tt))
  /\ (find_gcda w <> [] ->
      parse_all (gcov w) (find_gcda w) = Ok [] ->
      main w =
      (banner ++ [Found (length (find_gcda w)); Blank;
                  Text "Could not parse coverage data"],
       Ok tt))
  /\ (find_gcda w <> [] ->
      parse_all (gcov w) (find_gcda w) <> Ok [] ->
      exists report,
        main w =
        (banner ++ [Found (length (find_gcda w)); Blank] ++ report ++ closing,
         Ok tt)).
Proof.
  assert (Hfull : find_gcda w <> [] ->
                  parse_all (gcov w) (find_gcda w) <> Ok [] ->
                  exists report,
                    main w =
                    (banner ++ [Found (length (find_gcda w)); Blank]
                     ++ report ++ closing, Ok tt)).
  { intros Hfiles Hne.
    destruct (parse_all_ok (gcov w) (find_gcda w)) as (data & Hparse & Hok).
    assert (Hd : data <> []) by congruence.
    destruct (main_full_report w data Hfiles Hparse Hd Hok)
      as (overall & rows & low & _ & _ & _ & ->).
    exists ([Overall overall;
             CoveredOf (sum_by covered data) (sum_by total data);
             Blank;
             Text "Coverage by Category:"; Rule "-";
             Text (ljust 30 "Category" +:+ " " +:+ ljust 15 "Coverage"
                   +:+ " " +:+ ljust 20 "Lines");
             Rule "-"]
            ++ rows
            ++ [Blank; Text "Top 10 Best Covered Files:"; Rule "-"]
            ++ map file_row (top_files data)
            ++ [Blank]
            ++ low).
    f_equal. unfold banner.
    repeat (progress (cbn [app]; rewrite <- ?app_assoc)). reflexivity. }
  assert (Hret : exists o, main w = (o, Ok tt)).
  { destruct (find_gcda w) as [|f fs] eqn:Ef.
    - rewrite main_no_artifacts by exact Ef. eauto.
    - destruct (parse_all_ok (gcov w) (find_gcda w)) as (data & Hparse & _).
      destruct data as [|d ds].
      + rewrite main_nothing_parsed by (rewrite ?Ef; congruence). eauto.
      + destruct Hfull as (report & ->); [congruence|congruence|]. eauto. }
  split; [|split; [|split; [|split]]].
  - destruct Hret as (o & ->). exists o, tt. reflexivity.
  - destruct Hret as (o & ->). reflexivity.
  - apply main_no_artifacts.
  - apply main_nothing_parsed.
  - exact Hfull.
Qed.

Lemma main_always_succeeds_witness :
  exit_status (main engine_world) = 0
  /\ main empty_world =
     (banner ++ [Text "No coverage data found. Run 'make coverage' first."],
      Ok tt)
  /\ main broken_world =
     (banner ++ [Found 1; Blank; Text "Could not parse coverage data"],
      Ok tt).
Proof.
  split; [|split].
  - apply (main_always_succeeds engine_world).
  - apply (main_always_succeeds empty_world). reflexivity.
  - apply (main_always_succeeds broken_world).
    + vm_compute. discriminate.
    + vm_compute. reflexivity.
Defined.

End Main.

(** ** The double arithmetic against the Standard Library's specification

    [SpecFloat] specifies IEEE 754 operations on sign, mantissa and exponent.
    On the values below, [Float64] computes the same doubles. *)

Section SpecFloatAgreement.

Example of_decimal_75 : of_decimal 7500 2 = of_small 75.
Proof. vm_compute. reflexivity. Qed.

Example of_decimal_agrees :
  to_spec (of_decimal 1840 2)
  = SFdiv 53 1024 (to_spec (of_small 1840)) (to_spec (of_small 100)).
Proof. vm_compute. reflexivity. Qed.

Example fmul_agrees :
  to_spec (fmul (of_small 375) (of_decimal 1840 2))
  = SFmul 53 1024 (to_spec (of_small 375)) (to_spec (of_decimal 1840 2)).
Proof. vm_compute. reflexivity. Qed.

Example fdiv_agrees :
  (q ← fdiv (fmul (of_small 375) (of_decimal 1840 2)) hundred;
   Ok (to_spec q))
  = Ok (SFdiv 53 1024
          (SFmul 53 1024 (to_spec (of_small 375)) (to_spec (of_decimal 1840 2)))
          (to_spec hundred)).
Proof. vm_compute. reflexivity. Qed.

Example of_int_agrees :
  (t ← of_int (2 ^ 53 + 3); Ok (to_spec t))
  = Ok (binary_normalize 53 1024 (2 ^ 53 + 3) 0 false).
Proof. vm_compute. reflexivity. Qed.

Example int_truediv_agrees :
  (q ← int_truediv 11 30; Ok (to_spec q))
  = Ok (SFdiv 53 1024 (to_spec (of_small 11)) (to_spec (of_small 30))).
Proof. vm_compute. reflexivity. Qed.

Example fmul_overflow_agrees :
  to_spec (fmul (of_small (2 ^ 600)) (of_small (2 ^ 600)))
  = SFmul 53 1024 (to_spec (of_small (2 ^ 600))) (to_spec (of_small (2 ^ 600))).
Proof. vm_compute. reflexivity. Qed.

Example fmul_subnormal_agrees :
  to_spec (fmul (of_decimal 3 310) (of_decimal 7 10))
  = SFmul 53 1024 (to_spec (of_decimal 3 310)) (to_spec (of_decimal 7 10)).
Proof. vm_compute. reflexivity. Qed.

(** The smallest double and the largest. *)
Example of_decimal_smallest : of_decimal 5 324 = Fin 1.
Proof. vm_compute. reflexivity. Qed.

Example of_int_largest :
  of_int (2 ^ 1024 - 2 ^ 970 - 1) = Ok (Fin ((2 ^ 53 - 1) * 2 ^ 2045))
  /\ of_int (2 ^ 1024 - 2 ^ 970) = Raise OverflowError.
Proof. split; vm_compute; reflexivity. Qed.

End SpecFloatAgreement.

(** ** Claims on the two file tables *)

Section TableClaims.

Lemma parse_all_not_nan run gcda_files coverage_data :
  parse_all run gcda_files = Ok coverage_data ->
  Forall (fun d => not_nan (percentage d)) coverage_data.
Proof.
  intros H. destruct (parse_all_ok run gcda_files) as (data & Hd & Hok).
  rewrite H in Hd. injection Hd as ->. apply record_ok_not_nan, Hok.
Qed.

Lemma sample_parsed : parse_all sample_run sample_files = Ok sample_data.
Proof. vm_compute. reflexivity. Qed.

(** C5. The top-10 table holds the first ten of the parsed records sorted by
    percentage in descending order, records of equal percentage staying in
    the order in which they were discovered. *)
Theorem top_files_ranked (run : string -> result completed)
    (gcda_files : list string) (coverage_data : list coverage) :
  parse_all run gcda_files = Ok coverage_data ->
  exists ranked,
    top_files coverage_data = take 10 ranked
    /\ ranked ≡ₚ coverage_data
    /\ descending flt percentage ranked
    /\ (forall k, not_nan k ->
        filter (fun d => feq (percentage d) k = true) ranked
        = filter (fun d => feq (percentage d) k = true) coverage_data)
    /\ (length (top_files coverage_data) <= 10)%nat
    /\ report_top_files coverage_data =
       (Text "Top 10 Best Covered Files:" :: Rule "-"
          :: map file_row (top_files coverage_data), Ok tt).
Proof.
  intros H. apply top_files_of_numbers.
  apply (parse_all_not_nan run gcda_files). exact H.
Qed.

(** On the sample the two records at 75% come first, in their input
    order. *)
Lemma top_files_ranked_witness :
  exists ranked,
    top_files sample_data = take 10 ranked
    /\ ranked ≡ₚ sample_data
    /\ descending flt percentage ranked
    /\ (forall k, not_nan k ->
        filter (fun d => feq (percentage d) k = true) ranked
        = filter (fun d => feq (percentage d) k = true) sample_data)
    /\ (length (top_files sample_data) <= 10)%nat
    /\ report_top_files sample_data =
       (Text "Top 10 Best Covered Files:" :: Rule "-"
          :: map file_row (top_files sample_data), Ok tt).
Proof.
  exact (top_files_ranked sample_run sample_files sample_data sample_parsed).
Defined.

(** C6. The needs-improvement list holds exactly the parsed records whose
    percentage is strictly below 50, sorted by ascending percentage; its
    header counts them all and at most the first 15 are printed; when no
    record is below 50 the all-clear message is printed instead. *)
Theorem low_coverage_listed (run : string -> result completed)
    (gcda_files : list string) (coverage_data : list coverage) :
  parse_all run gcda_files = Ok coverage_data ->
  (forall d, d ∈ low_coverage coverage_data <->
             d ∈ coverage_data /\ flt (percentage d) (of_small 50) = true)
  /\ (low_coverage coverage_data = [] ->
      report_low_coverage coverage_data =
      ([Text "All files have >50% coverage!"], Ok tt))
  /\ (low_coverage coverage_data <> [] ->
      exists ranked,
        ranked ≡ₚ low_coverage coverage_data
        /\ ascending flt percentage ranked
        /\ (forall k, not_nan k ->
            filter (fun d => feq (percentage d) k = true) ranked
            = filter (fun d => feq (percentage d) k = true)
                (low_coverage coverage_data))
        /\ (length (take 15 ranked) <= 15)%nat
        /\ report_low_coverage coverage_data =
           (LowHeader (length (low_coverage coverage_data)) :: Rule "-"
              :: map file_row (take 15 ranked), Ok tt)).
Proof.
  intros H. apply low_coverage_of_numbers.
  apply (parse_all_not_nan run gcda_files). exact H.
Qed.

(** Of the three sample records only the one at 10% is listed. *)
Lemma low_coverage_listed_witness :
  combat_record ∈ low_coverage sample_data
  /\ report_low_coverage sample_data =
     ([LowHeader 1; Rule "-"; file_row combat_record], Ok tt).
Proof.
  destruct (low_coverage_listed sample_run sample_files sample_data
              sample_parsed) as (Hmem & _ & Hrep).
  split.
  - apply Hmem. split; [|vm_compute; reflexivity].
    unfold sample_data. rewrite !elem_of_cons. auto.
  - destruct (Hrep ltac:(vm_compute; discriminate))
      as (ranked & Hperm & _ & _ & _ & ->).
    change (low_coverage sample_data) with [combat_record] in Hperm |- *.
    apply Permutation_singleton_r in Hperm. subst ranked. reflexivity.
Defined.

End TableClaims.

(** * Further properties of the script *)

(** ** The loop over the artifacts *)

Section ArtifactLoop.

Lemma parsed_record_eq run f v :
  parse_gcov_output (run f) = Ok v -> parsed_record run f = v.
Proof. unfold parsed_record. intros ->. reflexivity. Qed.

Lemma parse_all_omap run gcda_files :
  parse_all run gcda_files = Ok (omap (parsed_record run) gcda_files).
Proof.
  induction gcda_files as [|f l IH]; [reflexivity|].
  cbn [parse_all]. destruct (parse_never_raises (run f)) as (v & Hv).
  rewrite Hv, IH. cbn [mbind result_bind omap list_omap].
  rewrite (parsed_record_eq run f v Hv). destruct v; reflexivity.
Qed.

Lemma length_omap_le {A B} (f : A -> option B) (l : list A) :
  (length (omap f l) <= length l)%nat.
Proof.
  induction l as [|x l IH]; [reflexivity|].
  cbn [omap list_omap]. destruct (f x); cbn [length]; lia.
Qed.

(** X1. The loop over the artifacts always ends with a list of records: the
    records of the artifacts that have one, in the order of discovery. There
    are never more records than artifacts, and an artifact without a record
    changes nothing. *)
Theorem parse_all_keeps_parsed (run : string -> result completed)
    (gcda_files : list string) :
  parse_all run gcda_files = Ok (omap (parsed_record run) gcda_files)
  /\ (length (omap (parsed_record run) gcda_files) <= length gcda_files)%nat
  /\ (forall d, d ∈ omap (parsed_record run) gcda_files <->
        exists f, f ∈ gcda_files /\ parse_gcov_output (run f) = Ok (Some d))
  /\ (forall before f after,
        parse_gcov_output (run f) = Ok None ->
        parse_all run (before ++ f :: after)
        = parse_all run (before ++ after)).
Proof.
  split; [apply parse_all_omap|]. split; [apply length_omap_le|]. split.
  - intros d. rewrite list_elem_of_omap. unfold parsed_record.
    split; intros (f & Hf & H); exists f; (split; [exact Hf|]).
    + destruct (parse_never_raises (run f)) as (v & Hv).
      rewrite Hv in H |- *. congruence.
    + rewrite H. reflexivity.
  - intros before f after Hnone. rewrite !parse_all_omap. f_equal.
    induction before as [|x l IH]; cbn [app omap list_omap].
    + rewrite (parsed_record_eq run f None Hnone). reflexivity.
    + rewrite IH. reflexivity.
Qed.

Lemma record_of_groups_fields filename ip fp tot d :
  record_of_groups filename ip fp tot = Ok d ->
  file d = filename
  /\ percentage d = float_of_digits ip fp
  /\ total d = int_of_digits tot.
Proof.
  intros H. pose proof (record_of_groups_limit _ _ _ _ _ H) as Hlen.
  revert H. unfold record_of_groups.
  rewrite (int_of_text_ok tot Hlen). cbn [mbind result_bind].
  destruct (of_int (int_of_digits tot)) as [t|]; [|discriminate].
  cbn [mbind result_bind].
  destruct (fdiv (fmul t (float_of_digits ip fp)) hundred) as [q|];
    [|discriminate].
  cbn [mbind result_bind].
  destruct (to_int q) as [c|]; [|discriminate].
  cbn [mbind result_bind]. intros [= <-]. auto.
Qed.

(** X2. A record is read from the text: whenever extraction returns a
    record, the subprocess call returned, and its combined output has a file
    line quoting the record's file name, which is not empty and holds no
    quote, and a coverage line whose digits give the record's percentage and
    total. *)
Theorem record_read_from_output (run : result completed) (d : coverage) :
  parse_gcov_output run = Ok (Some d) ->
  exists r pre1 suf1 pre2 suf2 ip fp tot,
    run = Ok r
    /\ stdout r +:+ stderr r = pre1 +:+ suf1
    /\ file_line_at (file d) suf1
    /\ stdout r +:+ stderr r = pre2 +:+ suf2
    /\ coverage_line_at ip fp tot suf2
    /\ percentage d = float_of_digits ip fp
    /\ total d = int_of_digits tot.
Proof.
  intros H. apply parse_some_inv in H
    as (r & filename & ip & fp & tot & -> & Hf & Hc & Hr).
  apply record_of_groups_fields in Hr as (Hfile & Hp & Ht).
  destruct (re_search_some _ _ _ Hf) as (pre1 & suf1 & H1 & Hm1 & _).
  destruct (re_search_some _ _ _ Hc) as (pre2 & suf2 & H2 & Hm2 & _).
  apply match_file_iff in Hm1 as (path & [= <-] & Hline).
  apply match_coverage_iff in Hm2
    as (ip' & fp' & tot' & post & -> & Hip & Hfp & Htot & _ & [= <- <- <-]).
  exists r, pre1, suf1, pre2. eexists. exists ip, fp, tot.
  rewrite Hfile.
  split; [reflexivity|]. split; [exact H1|]. split; [exact Hline|].
  split; [exact H2|]. split; [|auto].
  exists post. auto.
Qed.

Lemma record_read_from_output_witness :
  exists r pre1 suf1 pre2 suf2 ip fp tot,
    Ok engine_output = Ok r
    /\ stdout r +:+ stderr r = pre1 +:+ suf1
    /\ file_line_at (file engine_record) suf1
    /\ stdout r +:+ stderr r = pre2 +:+ suf2
    /\ coverage_line_at ip fp tot suf2
    /\ percentage engine_record = float_of_digits ip fp
    /\ total engine_record = int_of_digits tot.
Proof.
  apply (record_read_from_output (Ok engine_output) engine_record).
  vm_compute. reflexivity.
Defined.

End ArtifactLoop.

(** ** The discovery of the artifacts *)

Section Discovery.

Lemma endswith_suffix suf s :
  endswith suf s = true <-> exists pre, s = pre +:+ suf.
Proof.
  induction s as [|c s IH]; cbn [endswith].
  - rewrite orb_false_r, String.eqb_eq. split.
    + intros <-. exists "". reflexivity.
    + intros (pre & H). destruct pre; [exact H|discriminate].
  - rewrite orb_true_iff, String.eqb_eq, IH. split.
    + intros [<-|(pre & ->)]; [exists ""; reflexivity|].
      exists (String c pre). reflexivity.
    + intros (pre & H). destruct pre as [|d pre].
      * left. exact H.
      * right. rewrite append_cons in H. injection H as _ H. eauto.
Qed.

Lemma path_join_suffix a b : exists pre, path_join a b = pre +:+ b.
Proof.
  unfold path_join. destruct (String.prefix "/" b); [exists ""; reflexivity|].
  destruct (String.eqb a "" || endswith "/" a).
  - exists a. reflexivity.
  - exists (a +:+ "/"). rewrite append_assoc. reflexivity.
Qed.

Lemma endswith_path_join suf a b :
  endswith suf b = true -> endswith suf (path_join a b) = true.
Proof.
  rewrite !endswith_suffix. intros (pre & ->).
  destruct (path_join_suffix a (pre +:+ suf)) as (pre' & ->).
  exists (pre' +:+ pre). rewrite append_assoc. reflexivity.
Qed.

(** X3. The artifacts are the files of the walk whose name ends in [.gcda],
    each joined to its directory; every artifact path ends in [.gcda]
    itself, and there is none exactly when no file of the walk has that
    suffix. *)
Theorem find_gcda_finds_suffix (w : world) :
  (forall p, p ∈ find_gcda w <->
     exists root files f,
       (root, files) ∈ walk w /\ f ∈ files
       /\ endswith ".gcda" f = true /\ p = path_join root f)
  /\ (forall p, p ∈ find_gcda w -> endswith ".gcda" p = true)
  /\ (find_gcda w = [] <->
      forall root files f,
        (root, files) ∈ walk w -> f ∈ files -> endswith ".gcda" f = false).
Proof.
  assert (Hmem : forall p, p ∈ find_gcda w <->
     exists root files f,
       (root, files) ∈ walk w /\ f ∈ files
       /\ endswith ".gcda" f = true /\ p = path_join root f).
  { intros p. unfold find_gcda. rewrite list_elem_of_In, in_flat_map. split.
    - intros ([root files] & Hin & Hp).
      apply in_map_iff in Hp as (f & <- & Hf).
      apply list_elem_of_In, list_elem_of_filter in Hf as [Hs Hf].
      exists root, files, f. rewrite list_elem_of_In. auto.
    - intros (root & files & f & Hin & Hf & Hs & ->).
      exists (root, files). rewrite <- list_elem_of_In. split; [exact Hin|].
      apply in_map_iff. exists f. split; [reflexivity|].
      apply list_elem_of_In, list_elem_of_filter. auto. }
  split; [exact Hmem|]. split.
  - intros p Hp. apply Hmem in Hp as (root & files & f & _ & _ & Hs & ->).
    apply endswith_path_join. exact Hs.
  - split.
    + intros Hnil root files f Hin Hf.
      destruct (endswith ".gcda" f) eqn:Hs; [|reflexivity].
      assert (Hp : path_join root f ∈ find_gcda w)
        by (apply Hmem; exists root, files, f; auto).
      rewrite Hnil in Hp. apply elem_of_nil in Hp. contradiction.
    + intros Hno. destruct (find_gcda w) as [|p l] eqn:E; [reflexivity|].
      assert (Hp : p ∈ p :: l) by left.
      apply Hmem in Hp as (root & files & f & Hin & Hf & Hs & _).
      rewrite (Hno root files f Hin Hf) in Hs. discriminate.
Qed.

Lemma contains_cons_false sub c s :
  contains sub (String c s) = false -> contains sub s = false.
Proof. cbn [contains]. intros H. apply orb_false_elim in H as [_ H]. exact H. Qed.

Lemma endswith_cons suf c s :
  endswith suf s = true -> endswith suf (String c s) = true.
Proof. intros H. cbn [endswith]. rewrite H. apply orb_true_r. Qed.

(** X4. The name that a file row shows is the part of the record's path after
    its last slash: the path is a directory part, empty or ending in a slash,
    followed by that name, and the name holds no slash. *)
Theorem file_row_shows_base_name (data : coverage) :
  exists dir,
    file_row data =
    FileRow (basename (file data)) (percentage data) (covered data)
      (total data)
    /\ file data = dir +:+ basename (file data)
    /\ contains "/" (basename (file data)) = false
    /\ (dir = "" \/ endswith "/" dir = true).
Proof.
  assert (H : forall p, exists dir,
             p = dir +:+ basename p
             /\ contains "/" (basename p) = false
             /\ (dir = "" \/ endswith "/" dir = true)).
  { induction p as [|c p (dir & Hp & Hno & Hdir)].
    - exists "". auto.
    - cbn [basename]. destruct (contains "/" p) eqn:Hc.
      + exists (String c dir). rewrite append_cons, <- Hp.
        split; [reflexivity|]. split; [exact Hno|]. right.
        destruct Hdir as [->|Hd].
        * rewrite append_nil_l in Hp. rewrite <- Hp in Hno. congruence.
        * apply endswith_cons. exact Hd.
      + destruct (Ascii.eqb c "/") eqn:Ec.
        * apply Ascii.eqb_eq in Ec. subst c. exists "/". auto.
        * exists "". split; [reflexivity|]. split; [|auto].
          cbn [contains]. rewrite Hc, orb_false_r.
          cbn [String.prefix]. apply Ascii.eqb_neq in Ec.
          destruct (ascii_dec "/" c); [congruence|reflexivity]. }
  destruct (H (file data)) as (dir & H1 & H2 & H3).
  exists dir. auto.
Qed.

End Discovery.

Example find_gcda_tree :
  find_gcda tree_world = ["build/engine.gcda"; "build/game/damage.gcda"].
Proof. vm_compute. reflexivity. Qed.

(** ** The buckets of the categories *)

Section Buckets.

Lemma in_category_cons category d l :
  in_category category (d :: l) =
  if decide (category_of (file d) = category)
  then d :: in_category category l
  else in_category category l.
Proof. unfold in_category. rewrite filter_cons. reflexivity. Qed.

(** The bucket of a category after the loop, from the bucket before it. *)
Lemma fold_add_record_lookup coverage_data (m : gmap string stats) category :
  fold_left add_record coverage_data m !! category =
  match in_category category coverage_data with
  | [] => m !! category
  | l =>
      Some {| st_covered :=
                st_covered (default no_stats (m !! category))
                + sum_by covered l;
              st_total :=
                st_total (default no_stats (m !! category))
                + sum_by total l |}
  end.
Proof.
  revert m. induction coverage_data as [|d l IH]; intros m; [reflexivity|].
  cbn [fold_left]. rewrite IH, in_category_cons. unfold add_record at 1 2 3.
  destruct (decide (category_of (file d) = category)) as [<-|Hne].
  - rewrite lookup_insert_eq. cbn [default st_covered st_total].
    destruct (in_category (category_of (file d)) l) as [|d' l'].
    + f_equal. unfold sum_by. cbn [foldr]. rewrite !Z.add_0_r. reflexivity.
    + f_equal. unfold sum_by. cbn [foldr]. rewrite !Z.add_assoc. reflexivity.
  - rewrite lookup_insert_ne by exact Hne. reflexivity.
Qed.

Lemma group_by_category_lookup coverage_data category :
  group_by_category coverage_data !! category =
  match in_category category coverage_data with
  | [] => None
  | l => Some {| st_covered := sum_by covered l; st_total := sum_by total l |}
  end.
Proof.
  unfold group_by_category. rewrite fold_add_record_lookup, lookup_empty.
  destruct (in_category category coverage_data); reflexivity.
Qed.

(** X5. After the category loop a category has a bucket exactly when some
    record falls in it, and the bucket holds the sums of the covered counts
    and of the totals of the records of that category. *)
Theorem bucket_holds_category_sums (coverage_data : list coverage)
    (category : string) :
  group_by_category coverage_data !! category =
  match in_category category coverage_data with
  | [] => None
  | l => Some {| st_covered := sum_by covered l; st_total := sum_by total l |}
  end
  /\ (is_Some (group_by_category coverage_data !! category) <->
      exists d, d ∈ coverage_data /\ category_of (file d) = category).
Proof.
  split; [apply group_by_category_lookup|].
  rewrite group_by_category_lookup. unfold in_category. split.
  - intros Hs.
    destruct (filter _ coverage_data) as [|d l] eqn:E;
      [destruct Hs; discriminate|].
    assert (Hd : d ∈ filter (fun d => category_of (file d) = category)
                       coverage_data) by (rewrite E; left).
    apply list_elem_of_filter in Hd as [Hc Hd]. eauto.
  - intros (d & Hd & Hc).
    assert (Hin : d ∈ filter (fun d => category_of (file d) = category)
                        coverage_data) by (apply list_elem_of_filter; auto).
    destruct (filter _ coverage_data); [apply elem_of_nil in Hin; contradiction|].
    eauto.
Qed.

Lemma sum_by_perm f (l1 l2 : list coverage) :
  l1 ≡ₚ l2 -> sum_by f l1 = sum_by f l2.
Proof.
  induction 1 as [|x l1 l2 _ IH|x y l|l1 l2 l3 _ IH1 _ IH2];
    unfold sum_by in *; cbn [foldr]; lia.
Qed.

(** X6. The category buckets do not depend on the order in which the
    records were discovered. *)
Theorem buckets_ignore_order (data1 data2 : list coverage) :
  data1 ≡ₚ data2 -> group_by_category data1 = group_by_category data2.
Proof.
  intros Hp. apply map_eq. intros category.
  rewrite !group_by_category_lookup.
  assert (Hf : in_category category data1 ≡ₚ in_category category data2).
  { unfold in_category. rewrite Hp. reflexivity. }
  destruct (in_category category data1) as [|d l].
  - apply Permutation_nil_l in Hf. rewrite <- Hf. reflexivity.
  - destruct (in_category category data2) as [|d' l'];
      [apply Permutation_nil_r in Hf; discriminate|].
    f_equal. f_equal; apply sum_by_perm; exact Hf.
Qed.

Lemma buckets_ignore_order_witness :
  group_by_category [engine_record; combat_record; logger_record]
  = group_by_category [logger_record; engine_record; combat_record].
Proof.
  apply buckets_ignore_order.
  change [logger_record; engine_record; combat_record]
    with ([logger_record] ++ [engine_record; combat_record]).
  change [engine_record; combat_record; logger_record]
    with ([engine_record; combat_record] ++ [logger_record]).
  apply Permutation_app_comm.
Defined.

End Buckets.

(** ** The category table *)

Section CategoryTable.

Lemma ltb_not_leb a b : String.ltb a b = negb (String.leb b a).
Proof.
  unfold String.ltb, String.leb. rewrite (String.compare_antisym a b).
  destruct (String.compare b a); reflexivity.
Qed.

Lemma leb_refl a : String.leb a a = true.
Proof.
  pose proof (reflexivity (R := String.le) a) as H.
  unfold String.le in H. destruct (String.leb a a); [reflexivity|contradiction].
Qed.

Lemma leb_trans a b c :
  String.leb a b = true -> String.leb b c = true -> String.leb a c = true.
Proof.
  intros H1 H2.
  assert (H : String.le a c).
  { transitivity b; unfold String.le; [rewrite H1|rewrite H2]; exact I. }
  unfold String.le in H. destruct (String.leb a c); [reflexivity|contradiction].
Qed.

Lemma ltb_irrefl a : True -> String.ltb a a = false.
Proof. intros _. rewrite ltb_not_leb, leb_refl. reflexivity. Qed.

Lemma ltb_trans a b c :
  True -> True -> True ->
  String.ltb a b = true -> String.ltb b c = true -> String.ltb a c = true.
Proof.
  intros _ _ _. rewrite !ltb_not_leb, !negb_true_iff. intros H1 H2.
  destruct (String.leb c a) eqn:H3; [|reflexivity].
  destruct (String.leb_total a b) as [Hab|Hba]; [|congruence].
  rewrite (leb_trans c a b H3 Hab) in H2. discriminate.
Qed.

Lemma ltb_incomparable a b c :
  True -> True -> True ->
  String.ltb a b = false -> String.ltb b c = false -> String.ltb a c = false.
Proof.
  intros _ _ _. rewrite !ltb_not_leb, !negb_false_iff. intros H1 H2.
  apply (leb_trans c b a); assumption.
Qed.

Lemma sorted_keys_perm (categories : gmap string stats) :
  sorted_keys categories ≡ₚ map fst (map_to_list categories).
Proof. apply sorted_perm. Qed.

Lemma elem_of_sorted_keys (categories : gmap string stats) category :
  category ∈ sorted_keys categories <-> is_Some (categories !! category).
Proof.
  rewrite sorted_keys_perm. change (map fst) with (fmap (M := list) (@fst string stats)).
  rewrite list_elem_of_fmap. split.
  - intros ([k s] & -> & H). apply elem_of_map_to_list in H. eauto.
  - intros (s & H). exists (category, s). split; [reflexivity|].
    apply elem_of_map_to_list. exact H.
Qed.

Lemma sorted_keys_NoDup (categories : gmap string stats) :
  NoDup (sorted_keys categories).
Proof.
  rewrite sorted_keys_perm.
  change (map fst) with (fmap (M := list) (@fst string stats)).
  apply NoDup_fst_map_to_list.
Qed.

Lemma sorted_keys_increasing (categories : gmap string stats) :
  StronglySorted (fun a b => String.ltb a b = true) (sorted_keys categories).
Proof.
  pose proof (sorted_keys_NoDup categories) as Hnd.
  assert (Hasc : ascending String.ltb id (sorted_keys categories)).
  { apply (sorted_ascending String.ltb id (fun _ => True)
             ltb_irrefl ltb_trans ltb_incomparable).
    apply Forall_forall. auto. }
  unfold ascending, id in Hasc.
  induction Hasc as [|a l Hs IH Ha]; [constructor|].
  apply NoDup_cons in Hnd as [Hnotin Hnd].
  constructor; [apply IH; exact Hnd|].
  rewrite Forall_forall in Ha |- *. intros b Hb.
  specialize (Ha b Hb). rewrite ltb_not_leb, negb_false_iff in Ha.
  rewrite ltb_not_leb, negb_true_iff.
  destruct (String.leb b a) eqn:Hba; [|reflexivity].
  exfalso. apply Hnotin.
  rewrite (String.leb_antisym a b Ha Hba). exact Hb.
Qed.

Lemma category_of_label file_path : category_of file_path ∈ category_labels.
Proof.
  unfold category_of, category_labels, category_rules. cbn [map snd app].
  repeat (match goal with
          | |- context [contains ?f file_path] =>
              destruct (contains f file_path); cbn [orb]
          end); set_solver.
Qed.

Lemma for_each_rows {A} (l : list A) (f : A -> result pynum)
    (g : A -> pynum -> line) :
  (forall x, x ∈ l -> exists p, f x = Ok p) ->
  exists rows,
    for_each l (fun x => p ← lift (f x); print (g x p)) = (rows, Ok tt)
    /\ Forall2 (fun x row => exists p, f x = Ok p /\ row = g x p) l rows.
Proof.
  induction l as [|x l IH]; intros Hf.
  - exists []. split; [reflexivity|constructor].
  - destruct (Hf x) as (p & Hp); [left|].
    destruct IH as (rows & Hrows & Hall); [intros y Hy; apply Hf; right; exact Hy|].
    exists (g x p :: rows). split.
    + cbn [for_each]. rewrite Hrows. unfold lift. rewrite Hp. reflexivity.
    + constructor; [eauto|exact Hall].
Qed.

Lemma group_keys_iff coverage_data category :
  category ∈ sorted_keys (group_by_category coverage_data) <->
  exists d, d ∈ coverage_data /\ category_of (file d) = category.
Proof.
  rewrite elem_of_sorted_keys, group_by_category_lookup.
  unfold in_category. split.
  - intros Hs.
    destruct (filter _ coverage_data) as [|d l] eqn:E;
      [destruct Hs; discriminate|].
    assert (Hd : d ∈ filter (fun d => category_of (file d) = category)
                       coverage_data) by (rewrite E; left).
    apply list_elem_of_filter in Hd as [Hc Hd]. eauto.
  - intros (d & Hd & Hc).
    assert (Hin : d ∈ filter (fun d => category_of (file d) = category)
                        coverage_data) by (apply list_elem_of_filter; auto).
    destruct (filter _ coverage_data);
      [apply elem_of_nil in Hin; contradiction|eauto].
Qed.

Lemma group_keys_labels coverage_data category :
  category ∈ sorted_keys (group_by_category coverage_data) ->
  category ∈ category_labels.
Proof.
  intros Hc. apply group_keys_iff in Hc as (d & _ & <-).
  apply category_of_label.
Qed.

Lemma group_keys_length coverage_data :
  (length (sorted_keys (group_by_category coverage_data)) <= 11)%nat.
Proof.
  change 11%nat with (length category_labels).
  apply submseteq_length, NoDup_submseteq; [apply sorted_keys_NoDup|].
  intros category. apply group_keys_labels.
Qed.

Lemma report_categories_rows coverage_data :
  Forall record_ok coverage_data ->
  exists rows,
    report_categories (group_by_category coverage_data) = (rows, Ok tt)
    /\ Forall2
         (fun category row =>
            exists p,
              category_percentage
                (default no_stats
                   (group_by_category coverage_data !! category)) = Ok p
              /\ row = category_row (group_by_category coverage_data)
                         category p)
         (sorted_keys (group_by_category coverage_data)) rows.
Proof.
  intros Hok. set (m := group_by_category coverage_data).
  assert (Hm : map_Forall (fun _ => stats_ok) m)
    by (apply group_by_category_ok; exact Hok).
  apply (for_each_rows (sorted_keys m)
           (fun category =>
              category_percentage (default no_stats (m !! category)))
           (category_row m)).
  intros category _. unfold category_percentage. apply percent_of_ok.
  destruct (m !! category) as [s|] eqn:E; cbn [default].
  - apply (Hm _ _ E).
  - unfold no_stats. cbn. lia.
Qed.

(** X7. The category table of the parsed records has one row for each
    category that has a record, and no other: the rows come in strictly
    increasing order of the category names, so no name comes twice; every
    name is one of the eleven labels, so there are at most eleven rows; and
    each row shows the percentage and the two sums of its bucket. *)
Theorem category_table_rows (run : string -> result completed)
    (gcda_files : list string) (coverage_data : list coverage) :
  parse_all run gcda_files = Ok coverage_data ->
  exists rows,
    report_categories (group_by_category coverage_data) = (rows, Ok tt)
    /\ Forall2
         (fun category row =>
            exists p,
              category_percentage
                (default no_stats
                   (group_by_category coverage_data !! category)) = Ok p
              /\ row = category_row (group_by_category coverage_data)
                         category p)
         (sorted_keys (group_by_category coverage_data)) rows
    /\ (forall category,
          category ∈ sorted_keys (group_by_category coverage_data) <->
          exists d, d ∈ coverage_data /\ category_of (file d) = category)
    /\ StronglySorted (fun a b => String.ltb a b = true)
         (sorted_keys (group_by_category coverage_data))
    /\ (forall category,
          category ∈ sorted_keys (group_by_category coverage_data) ->
          category ∈ category_labels)
    /\ (length rows <= 11)%nat.
Proof.
  intros Hparse.
  assert (Hok : Forall record_ok coverage_data).
  { destruct (parse_all_ok run gcda_files) as (data & Hd & Hok).
    rewrite Hparse in Hd. injection Hd as ->. exact Hok. }
  destruct (report_categories_rows coverage_data Hok) as (rows & Hrows & Hall).
  exists rows. split; [exact Hrows|]. split; [exact Hall|].
  split; [intros category; apply group_keys_iff|].
  split; [apply sorted_keys_increasing|].
  split; [intros category; apply group_keys_labels|].
  rewrite <- (Forall2_length _ _ _ Hall). apply group_keys_length.
Qed.

Lemma category_table_rows_witness :
  exists rows,
    report_categories (group_by_category sample_data) = (rows, Ok tt)
    /\ Forall2
         (fun category row =>
            exists p,
              category_percentage
                (default no_stats
                   (group_by_category sample_data !! category)) = Ok p
              /\ row = category_row (group_by_category sample_data)
                         category p)
         (sorted_keys (group_by_category sample_data)) rows
    /\ (forall category,
          category ∈ sorted_keys (group_by_category sample_data) <->
          exists d, d ∈ sample_data /\ category_of (file d) = category)
    /\ StronglySorted (fun a b => String.ltb a b = true)
         (sorted_keys (group_by_category sample_data))
    /\ (forall category,
          category ∈ sorted_keys (group_by_category sample_data) ->
          category ∈ category_labels)
    /\ (length rows <= 11)%nat.
Proof.
  exact (category_table_rows sample_run sample_files sample_data sample_parsed).
Defined.

Example sample_category_keys :
  sorted_keys (group_by_category sample_data)
  = ["Combat System"; "Core Systems"; "Utilities"].
Proof. vm_compute. reflexivity. Qed.

End CategoryTable.

(** ** Exact and bounded percentages *)

Section Percentages.

(** A multiple of a unit by an integer below [2^53] is a double, and rounding
    a quotient of that value gives it back. *)
Lemma rounded_exact_units a b i :
  0 < b -> 0 <= i < 2 ^ 53 -> a = i * unit * b -> rounded a b = i * unit.
Proof.
  intros Hb Hi ->. unfold rounded. rewrite Z.div_mul by lia.
  set (k := drop_bits (i * unit)).
  assert (Hk : 0 <= k <= 1074).
  { split; [apply drop_bits_nonneg|].
    unfold k, drop_bits, prec.
    destruct (Z.eq_dec i 0) as [->|Hne]; [rewrite Z.mul_0_l; simpl; lia|].
    unfold unit. rewrite Z.log2_mul_pow2 by lia.
    assert (Z.log2 i < 53) by (apply Z.log2_lt_pow2; lia). lia. }
  assert (Hu : unit = 2 ^ (1074 - k) * 2 ^ k).
  { unfold unit. rewrite <- Z.pow_add_r by lia. f_equal. lia. }
  assert (Hp : 0 < 2 ^ k) by (apply Z.pow_pos_nonneg; lia).
  assert (Ha : i * unit * b = i * 2 ^ (1074 - k) * (b * 2 ^ k)).
  { rewrite Hu. ring. }
  rewrite rne_exact.
  - rewrite Ha, Z.div_mul by nia. rewrite Hu. ring.
  - nia.
  - exists (i * 2 ^ (1074 - k)). exact Ha.
Qed.

Lemma floor_percent_full T :
  0 <= T -> T * 100 < 2 ^ 53 -> floor_percent T (of_small 100) = Some T.
Proof.
  intros HT Hlt. unfold floor_percent. pose proof unit_pos as HU.
  rewrite of_int_exact by lia.
  unfold fmul, of_small. rewrite round_units_nonneg by nia.
  rewrite round_mag_rounded.
  rewrite (rounded_exact_units _ unit (T * 100)) by (try lia; ring).
  assert (H1 : T * 100 * unit < huge).
  { rewrite huge_unit. apply Z.mul_lt_mono_pos_r; [exact HU|].
    apply Z.lt_trans with (2 ^ 53); [exact Hlt|reflexivity]. }
  apply Z.ltb_lt in H1. rewrite H1.
  rewrite fdiv_hundred by nia.
  rewrite round_units_nonneg by nia. rewrite round_mag_rounded.
  rewrite (rounded_exact_units _ (100 * unit) T) by (try lia; ring).
  assert (H2 : T * unit < huge).
  { rewrite huge_unit. apply Z.mul_lt_mono_pos_r; [exact HU|].
    apply Z.lt_trans with (2 ^ 53); [lia|reflexivity]. }
  apply Z.ltb_lt in H2. rewrite H2.
  rewrite Z.div_mul by lia. reflexivity.
Qed.

Lemma floor_percent_none T c :
  floor_percent T (Fin 0) = Some c -> c = 0.
Proof.
  unfold floor_percent. pose proof unit_pos as HU.
  destruct (of_int T) as [[t| |]|]; try discriminate.
  unfold fmul. rewrite Z.mul_0_r, round_units_nonneg by lia.
  rewrite round_mag_rounded, rounded_zero by exact HU.
  change (0 <? huge) with true. cbv iota.
  rewrite fdiv_hundred, Z.mul_0_l by lia.
  rewrite round_units_nonneg, round_mag_rounded, rounded_zero by lia.
  change (0 <? huge) with true. cbv iota.
  rewrite Z.div_0_l by lia. congruence.
Qed.

(** X8. A record whose percentage is 0.0 counts no covered line, and a record
    whose percentage is 100.0 counts all its lines as covered, as long as 100
    times the total is an exact double (below [2^53]). *)
Theorem extreme_percentages_exact (run : result completed) (d : coverage) :
  parse_gcov_output run = Ok (Some d) ->
  (percentage d = Fin 0 -> covered d = 0)
  /\ (percentage d = of_small 100 -> total d * 100 < 2 ^ 53 ->
      covered d = total d).
Proof.
  intros H. destruct (parse_some_fields run d H) as (HT & _ & Hfl). split.
  - intros Hp. rewrite Hp in Hfl. apply (floor_percent_none _ _ Hfl).
  - intros Hp Hlt. rewrite Hp, floor_percent_full in Hfl by assumption.
    congruence.
Qed.

Lemma extreme_percentages_exact_witness :
  covered {| file := "src/core/engine.c"; percentage := of_small 100;
             covered := 40; total := 40 |}
  = total {| file := "src/core/engine.c"; percentage := of_small 100;
             covered := 40; total := 40 |}.
Proof.
  apply (extreme_percentages_exact (Ok full_output)).
  - vm_compute. reflexivity.
  - reflexivity.
  - reflexivity.
Defined.

(** Rounding never goes above a double that bounds the exact value. *)
Lemma rne_le a b w : 0 <= a -> 0 < b -> a <= b * w -> rne a b <= w.
Proof.
  intros Ha Hb Hw. pose proof (rne_bounds a b Ha Hb) as [_ H]. nia.
Qed.

Lemma rounded_le_representable a b v :
  0 <= a -> 0 < b -> representable v -> a <= b * v -> rounded a b <= v.
Proof.
  intros Ha Hb [Hv Hmod] Hle. unfold rounded.
  set (k := drop_bits (a / b)).
  assert (Hk : 0 <= k) by apply drop_bits_nonneg.
  assert (Hq : a / b <= v).
  { apply Z.div_le_upper_bound; [exact Hb|exact Hle]. }
  assert (Hkv : k <= drop_bits v).
  { unfold k, drop_bits. pose proof (Z.log2_le_mono _ _ Hq). lia. }
  assert (Hp : 0 < 2 ^ k) by (apply Z.pow_pos_nonneg; lia).
  assert (Hdiv : exists w, v = w * 2 ^ k).
  { apply Z.mod_divide in Hmod; [|apply Z.pow_nonzero; lia].
    destruct Hmod as [z Hz]. exists (z * 2 ^ (drop_bits v - k)).
    rewrite Hz at 1. rewrite <- Z.mul_assoc, <- Z.pow_add_r by lia.
    do 2 f_equal. lia. }
  destruct Hdiv as [w Hw].
  assert (Hr : rne a (b * 2 ^ k) <= w).
  { apply rne_le; [exact Ha|nia|]. rewrite Hw in Hle. nia. }
  rewrite Hw. nia.
Qed.

Lemma representable_one : representable unit.
Proof. split; [apply Z.lt_le_incl, unit_pos|reflexivity]. Qed.

Lemma representable_hundred : representable (100 * unit).
Proof. split; [pose proof unit_pos; lia|reflexivity]. Qed.

(** The percentage of a covered sum that is at most the total is at most
    100. *)
Lemma percent_of_within c t :
  0 <= c <= t -> exists p, percent_of c t = Ok p /\ within_percent p.
Proof.
  intros Hc. unfold percent_of. pose proof unit_pos as HU.
  destruct (0 <? t) eqn:E; [|exists (PyInt 0); split; reflexivity].
  apply Z.ltb_lt in E. unfold int_truediv.
  destruct (t =? 0) eqn:E0; [apply Z.eqb_eq in E0; lia|].
  destruct (t <? 0) eqn:E1; [apply Z.ltb_lt in E1; lia|].
  rewrite round_units_nonneg by nia. rewrite round_mag_rounded.
  pose proof (rounded_nonneg (c * unit) t ltac:(nia) E) as Hq0.
  pose proof (rounded_le_representable (c * unit) t unit
                (ltac:(nia)) E representable_one (ltac:(nia))) as Hq1.
  set (q := rounded (c * unit) t) in *.
  assert (Hqh : (q <? huge) = true).
  { apply Z.ltb_lt. assert (unit < huge) by reflexivity. lia. }
  rewrite Hqh. cbn [mbind result_bind].
  unfold fmul, hundred, of_small. rewrite round_units_nonneg by nia.
  rewrite round_mag_rounded.
  pose proof (rounded_nonneg (q * (100 * unit)) unit ltac:(nia) HU) as Hx0.
  pose proof (rounded_le_representable (q * (100 * unit)) unit (100 * unit)
                (ltac:(nia)) HU representable_hundred (ltac:(nia))) as Hx1.
  set (x := rounded (q * (100 * unit)) unit) in *.
  assert (Hxh : (x <? huge) = true).
  { apply Z.ltb_lt. assert (100 * unit < huge) by reflexivity. lia. }
  rewrite Hxh. eexists. split; [reflexivity|].
  cbn [within_percent fle flt]. split; apply negb_true_iff, Z.ltb_ge; lia.
Qed.

Lemma parsed_covered_le_total run d :
  parse_gcov_output run = Ok (Some d) ->
  fle (percentage d) hundred = true -> total d < 2 ^ 52 ->
  0 <= covered d <= total d.
Proof.
  intros H Hle Hlt.
  destruct (parse_some_fields run d H) as (HT & Hp & Hfl).
  destruct (floor_percent_bound _ _ _ HT Hp Hfl) as [_ (pn & Hpn & Hpos)].
  rewrite Hpn in *.
  apply (covered_le_total (total d) pn (covered d)); [lia| |exact Hfl].
  split; [exact Hpos|].
  unfold fle, hundred, of_small, flt in Hle.
  apply negb_true_iff, Z.ltb_ge in Hle. exact Hle.
Qed.

Lemma sum_by_le (l : list coverage) :
  Forall (fun d => 0 <= covered d <= total d) l ->
  0 <= sum_by covered l <= sum_by total l.
Proof. induction 1 as [|d l Hd _ IH]; unfold sum_by in *; cbn [foldr]; lia. Qed.

(** X9. When every parsed record reports at most 100% of fewer than [2^52]
    lines, the overall percentage and the percentage of every category are
    computed without an exception and lie between 0 and 100. *)
Theorem percentages_within_hundred (run : string -> result completed)
    (gcda_files : list string) (coverage_data : list coverage) :
  parse_all run gcda_files = Ok coverage_data ->
  Forall (fun d => fle (percentage d) hundred = true /\ total d < 2 ^ 52)
    coverage_data ->
  (exists p, overall_percentage coverage_data = Ok p /\ within_percent p)
  /\ (forall category s,
        group_by_category coverage_data !! category = Some s ->
        exists p, category_percentage s = Ok p /\ within_percent p).
Proof.
  intros Hparse Hsane.
  assert (Hle : Forall (fun d => 0 <= covered d <= total d) coverage_data).
  { rewrite Forall_forall in Hsane |- *. intros d Hd.
    destruct (Hsane d Hd) as [Hp Ht].
    rewrite parse_all_omap in Hparse. injection Hparse as <-.
    apply list_elem_of_omap in Hd as (f & _ & Hf).
    unfold parsed_record in Hf.
    destruct (parse_gcov_output (run f)) as [v|] eqn:Hv; [|discriminate].
    subst v. apply (parsed_covered_le_total (run f)); assumption. }
  split.
  - apply percent_of_within, sum_by_le, Hle.
  - intros category s Hs. rewrite group_by_category_lookup in Hs.
    assert (Hcat : Forall (fun d => 0 <= covered d <= total d)
                     (in_category category coverage_data)).
    { unfold in_category. rewrite Forall_forall in Hle |- *.
      intros d Hd. apply list_elem_of_filter in Hd as [_ Hd]. auto. }
    pose proof (sum_by_le _ Hcat) as Hsum.
    destruct (in_category category coverage_data) as [|d l];
      [discriminate|].
    injection Hs as <-. apply percent_of_within. exact Hsum.
Qed.

Lemma sample_within_hundred :
  Forall (fun d => fle (percentage d) hundred = true /\ total d < 2 ^ 52)
    sample_data.
Proof. repeat constructor. Qed.

Lemma percentages_within_hundred_witness :
  (exists p, overall_percentage sample_data = Ok p /\ within_percent p)
  /\ (forall category s,
        group_by_category sample_data !! category = Some s ->
        exists p, category_percentage s = Ok p /\ within_percent p).
Proof.
  exact (percentages_within_hundred sample_run sample_files sample_data
           sample_parsed sample_within_hundred).
Defined.

End Percentages.

(** ** The first rows of the two file tables *)

Section FirstRows.

Lemma fle_of_not_flt x y :
  not_nan x -> not_nan y -> flt y x = false -> fle x y = true.
Proof.
  unfold not_nan, fle. intros Hx Hy H.
  destruct x, y; try congruence; rewrite H; reflexivity.
Qed.

(** X10. The first row of the top-10 table is a parsed record of the highest
    percentage; the table is not empty when there is a record, and it holds
    all the records when there are at most ten. *)
Theorem best_file_comes_first (run : string -> result completed)
    (gcda_files : list string) (coverage_data : list coverage) :
  parse_all run gcda_files = Ok coverage_data ->
  (forall best rest,
      top_files coverage_data = best :: rest ->
      best ∈ coverage_data
      /\ forall d, d ∈ coverage_data ->
                   fle (percentage d) (percentage best) = true)
  /\ (coverage_data <> [] -> top_files coverage_data <> [])
  /\ ((length coverage_data <= 10)%nat ->
      top_files coverage_data ≡ₚ coverage_data).
Proof.
  intros Hparse.
  pose proof (parse_all_not_nan _ _ _ Hparse) as Hnn.
  destruct (top_files_of_numbers coverage_data Hnn)
    as (ranked & Htop & Hperm & Hdesc & _).
  rewrite Htop. rewrite Forall_forall in Hnn. split; [|split].
  - intros best rest Hbest.
    destruct ranked as [|b tail]; [discriminate|].
    cbn [take] in Hbest. injection Hbest as -> _.
    assert (Hin : best ∈ coverage_data) by (rewrite <- Hperm; left).
    split; [exact Hin|]. intros d Hd.
    apply fle_of_not_flt; auto.
    rewrite <- Hperm in Hd. apply elem_of_cons in Hd as [->|Hd].
    + apply flt_irrefl. auto.
    + unfold descending in Hdesc.
      apply StronglySorted_cons in Hdesc as [Hall _].
      rewrite Forall_forall in Hall. auto.
  - intros Hne Hnil. destruct ranked as [|b tail]; [|discriminate].
    apply Permutation_nil_l in Hperm. congruence.
  - intros Hlen. rewrite take_ge; [exact Hperm|].
    rewrite (Permutation_length Hperm). exact Hlen.
Qed.

Lemma best_file_comes_first_witness :
  (forall best rest,
      top_files sample_data = best :: rest ->
      best ∈ sample_data
      /\ forall d, d ∈ sample_data ->
                   fle (percentage d) (percentage best) = true)
  /\ (sample_data <> [] -> top_files sample_data <> [])
  /\ ((length sample_data <= 10)%nat -> top_files sample_data ≡ₚ sample_data).
Proof.
  exact (best_file_comes_first sample_run sample_files sample_data
           sample_parsed).
Defined.

(** X11. When some record is below 50%, the needs-improvement list is
    printed, and its first row is a record of the lowest percentage of all
    the parsed records. *)
Theorem worst_file_comes_first (run : string -> result completed)
    (gcda_files : list string) (coverage_data : list coverage) :
  parse_all run gcda_files = Ok coverage_data ->
  low_coverage coverage_data <> [] ->
  exists worst rows,
    report_low_coverage coverage_data =
    (LowHeader (length (low_coverage coverage_data)) :: Rule "-"
       :: file_row worst :: rows, Ok tt)
    /\ worst ∈ coverage_data
    /\ flt (percentage worst) (of_small 50) = true
    /\ forall d, d ∈ coverage_data ->
                 fle (percentage worst) (percentage d) = true.
Proof.
  intros Hparse Hne.
  pose proof (parse_all_not_nan _ _ _ Hparse) as Hnn.
  assert (Hlow : Forall (fun d => not_nan (percentage d))
                   (low_coverage coverage_data)).
  { unfold low_coverage. rewrite Forall_forall in Hnn |- *.
    intros d Hin. apply list_elem_of_filter in Hin as [_ Hin]. auto. }
  pose proof (sorted_perm flt percentage false (low_coverage coverage_data))
    as Hperm.
  pose proof (sorted_ascending flt percentage not_nan
                flt_irrefl flt_trans flt_incomparable _ Hlow) as Hasc.
  rewrite report_low_coverage_lines.
  destruct (low_coverage coverage_data) as [|d0 l0] eqn:Elow; [congruence|].
  rewrite <- Elow in *. clear Hne.
  destruct (sorted flt percentage false (low_coverage coverage_data))
    as [|worst tail] eqn:Es.
  { rewrite Elow in Hperm. apply Permutation_nil_l in Hperm. discriminate. }
  assert (Hw : worst ∈ low_coverage coverage_data)
    by (rewrite <- Hperm; left).
  unfold low_coverage, fifty in Hw.
  apply list_elem_of_filter in Hw as [Hw50 Hwin].
  rewrite Forall_forall in Hnn.
  exists worst, (map file_row (take 14 tail)).
  split; [reflexivity|]. split; [exact Hwin|]. split; [exact Hw50|].
  intros d Hd. apply fle_of_not_flt; auto.
  destruct (flt (percentage d) (of_small 50)) eqn:Hd50.
  - assert (Hdl : d ∈ worst :: tail).
    { rewrite Hperm. unfold low_coverage, fifty.
      apply list_elem_of_filter. auto. }
    apply elem_of_cons in Hdl as [->|Hdl].
    + apply flt_irrefl. auto.
    + unfold ascending in Hasc.
      apply StronglySorted_cons in Hasc as [Hall _].
      rewrite Forall_forall in Hall. auto.
  - destruct (flt (percentage d) (percentage worst)) eqn:Hlt; [|reflexivity].
    rewrite (flt_trans (percentage d) (percentage worst) (of_small 50))
      in Hd50; auto. discriminate.
Qed.

Lemma worst_file_comes_first_witness :
  exists worst rows,
    report_low_coverage sample_data =
    (LowHeader (length (low_coverage sample_data)) :: Rule "-"
       :: file_row worst :: rows, Ok tt)
    /\ worst ∈ sample_data
    /\ flt (percentage worst) (of_small 50) = true
    /\ forall d, d ∈ sample_data ->
                 fle (percentage worst) (percentage d) = true.
Proof.
  apply (worst_file_comes_first sample_run sample_files sample_data
           sample_parsed).
  vm_compute. discriminate.
Defined.

End FirstRows.

(** ** The covered count against the decimal text *)

Section Accuracy.

Lemma rne_lower a b : 0 <= a -> 0 < b -> 2 * a <= 2 * b * rne a b + b.
Proof.
  intros Ha Hb. unfold rne.
  pose proof (Z.div_mod a b ltac:(lia)) as Hdm.
  pose proof (Z.mod_pos_bound a b Hb) as Hr.
  destruct (2 * (a mod b) <? b) eqn:E1; [apply Z.ltb_lt in E1; nia|].
  apply Z.ltb_ge in E1.
  destruct (b <? 2 * (a mod b)) eqn:E2; [apply Z.ltb_lt in E2; nia|].
  apply Z.ltb_ge in E2.
  destruct (Z.even (a / b)); nia.
Qed.

(** Rounding takes away at most half a unit or a relative [2^-53]. *)
Lemma rounded_lower a b :
  0 <= a -> 0 < b ->
  a * (2 ^ 53 - 1) <= 2 ^ 53 * b * rounded a b + 2 ^ 52 * b.
Proof.
  intros Ha Hb. unfold rounded.
  set (k := drop_bits (a / b)).
  assert (Hk : 0 <= k) by apply drop_bits_nonneg.
  assert (Hp : 0 < 2 ^ k) by (apply Z.pow_pos_nonneg; lia).
  pose proof (rne_lower a (b * 2 ^ k) Ha ltac:(nia)) as Hl.
  set (m := rne a (b * 2 ^ k)) in *.
  assert (H53 : 2 ^ 53 = 2 * 2 ^ 52) by reflexivity.
  destruct (Z.eq_dec k 0) as [Hk0|Hk0].
  - rewrite Hk0 in *. change (2 ^ 0) with 1 in *. nia.
  - pose proof (drop_bits_pos (a / b) ltac:(fold k; lia)) as [Hlo _].
    fold k in Hlo. rewrite Z.pow_add_r in Hlo by lia.
    pose proof (Z.mul_div_le a b Hb) as Hq.
    assert (Hs : 2 ^ 52 * (b * 2 ^ k) <= a) by nia.
    nia.
Qed.

(** The percentage read from digits whose decimal value is at most 100 is at
    most 100.0. *)
Lemma of_decimal_le_hundred num scale :
  0 <= num <= 100 * 10 ^ Z.of_nat scale ->
  exists pn, of_decimal num scale = Fin pn /\ 0 <= pn <= 100 * unit.
Proof.
  intros Hn. unfold of_decimal. pose proof unit_pos as HU.
  assert (HD : 0 < 10 ^ Z.of_nat scale) by (apply Z.pow_pos_nonneg; lia).
  rewrite round_units_nonneg by nia. rewrite round_mag_rounded.
  pose proof (rounded_nonneg (num * unit) _ (ltac:(nia)) HD) as H0.
  pose proof (rounded_le_representable (num * unit) (10 ^ Z.of_nat scale)
                (100 * unit) (ltac:(nia)) HD representable_hundred
                (ltac:(nia))) as H1.
  set (pn := rounded (num * unit) (10 ^ Z.of_nat scale)) in *.
  assert (Hh : (pn <? huge) = true).
  { apply Z.ltb_lt. assert (100 * unit < huge) by reflexivity. lia. }
  rewrite Hh. exists pn. split; [reflexivity|lia].
Qed.

(** X12. When the digits of the coverage line read at most 100 percent and
    the total is below [2^52], the record counts no more covered lines than
    lines. *)
Theorem sane_line_gives_sane_record (run : result completed) (d : coverage) :
  parse_gcov_output run = Ok (Some d) ->
  exists ip fp tot,
    (exists r, run = Ok r
       /\ re_search coverage_re (stdout r +:+ stderr r) = Some [ip; fp; tot])
    /\ percentage d = float_of_digits ip fp
    /\ total d = int_of_digits tot
    /\ (int_of_digits (ip +:+ fp) <= 100 * 10 ^ Z.of_nat (String.length fp) ->
        int_of_digits tot < 2 ^ 52 ->
        fle (percentage d) hundred = true /\ 0 <= covered d <= total d).
Proof.
  intros H. pose proof H as Hinv. apply parse_some_inv in Hinv
    as (r & filename & ip & fp & tot & -> & Hf & Hc & Hr).
  destruct (search_coverage_digits _ _ _ _ Hc) as (Hip & Hfp & Htot).
  apply record_of_groups_fields in Hr as (_ & Hp & Ht).
  exists ip, fp, tot. split; [eauto|]. split; [exact Hp|]. split; [exact Ht|].
  intros Hnum Htotal.
  assert (Hle : fle (percentage d) hundred = true).
  { rewrite Hp. unfold float_of_digits.
    destruct (of_decimal_le_hundred (int_of_digits (ip +:+ fp))
                (String.length fp)) as (pn & -> & Hpn).
    - split; [|exact Hnum]. apply int_of_digits_nonneg.
      rewrite all_chars_app, Hip, Hfp. reflexivity.
    - unfold fle, hundred, of_small, flt.
      apply negb_true_iff, Z.ltb_ge. lia. }
  split; [exact Hle|].
  apply (parsed_covered_le_total (Ok r)); [exact H|exact Hle|].
  rewrite Ht. exact Htotal.
Qed.

Lemma sane_line_gives_sane_record_witness :
  exists ip fp tot,
    (exists r, Ok engine_output = Ok r
       /\ re_search coverage_re (stdout r +:+ stderr r) = Some [ip; fp; tot])
    /\ percentage engine_record = float_of_digits ip fp
    /\ total engine_record = int_of_digits tot
    /\ (int_of_digits (ip +:+ fp) <= 100 * 10 ^ Z.of_nat (String.length fp) ->
        int_of_digits tot < 2 ^ 52 ->
        fle (percentage engine_record) hundred = true
        /\ 0 <= covered engine_record <= total engine_record).
Proof.
  apply (sane_line_gives_sane_record (Ok engine_output) engine_record).
  vm_compute. reflexivity.
Defined.

(** [ring_le H] closes an inequality that is [H] up to ring identities, and
    [scale_le k Hk H] one that is [H] multiplied by [k >= 0]. *)
Ltac ring_le H :=
  match type of H with
  | ?l <= ?r =>
      match goal with
      | |- ?a <= ?b =>
          replace a with l by ring; replace b with r by ring; exact H
      end
  end.

Ltac scale_le k Hk H :=
  let H' := fresh in
  pose proof (Z.mul_le_mono_nonneg_l _ _ k Hk H) as H'; ring_le H'.

(** The double computation of [total * percentage / 100] against the exact
    quotient of the decimal [num / D] percent of [T] lines. *)
Lemma floor_percent_accuracy T num D c :
  0 <= T < 2 ^ 53 -> 0 <= num -> 0 < D ->
  T * num < 100 * D * 2 ^ 50 ->
  floor_percent T (round_units (num * unit) D) = Some c ->
  T * num / (100 * D) - 1 <= c <= T * num / (100 * D) + 1.
Proof.
  intros HT Hnum HD Hsmall. unfold floor_percent. pose proof unit_pos as HU.
  rewrite of_int_exact by exact HT.
  rewrite round_units_nonneg by nia.
  destruct (round_mag_cases (num * unit) D (ltac:(nia)) HD) as [[-> Hp]| ->].
  2:{ unfold fmul. destruct (T * unit =? 0); discriminate. }
  pose proof (rounded_upper (num * unit) D (ltac:(nia)) HD) as Hpu.
  pose proof (rounded_lower (num * unit) D (ltac:(nia)) HD) as Hpl.
  set (pn := rounded (num * unit) D) in *.
  unfold fmul. rewrite round_units_nonneg by nia.
  destruct (round_mag_cases (T * unit * pn) unit (ltac:(nia)) HU)
    as [[-> Hx]| ->]; [|discriminate].
  pose proof (rounded_upper (T * unit * pn) unit (ltac:(nia)) HU) as Hxu.
  pose proof (rounded_lower (T * unit * pn) unit (ltac:(nia)) HU) as Hxl.
  set (x := rounded (T * unit * pn) unit) in *.
  rewrite fdiv_hundred by lia. rewrite round_units_nonneg by nia.
  destruct (round_mag_cases (x * unit) (100 * unit) (ltac:(nia)) ltac:(lia))
    as [[-> Hy]| ->]; [|discriminate].
  pose proof (rounded_upper (x * unit) (100 * unit) (ltac:(nia)) ltac:(lia))
    as Hyu.
  pose proof (rounded_lower (x * unit) (100 * unit) (ltac:(nia)) ltac:(lia))
    as Hyl.
  set (y := rounded (x * unit) (100 * unit)) in *.
  intros [= <-].
  (* the three roundings, with the unit cancelled *)
  assert (Hxu' : 2 ^ 53 * x <= T * pn * (2 ^ 53 + 1) + 2 ^ 52)
    by (apply (Z.mul_le_mono_pos_l _ _ unit HU); ring_le Hxu).
  assert (Hxl' : T * pn * (2 ^ 53 - 1) <= 2 ^ 53 * x + 2 ^ 52)
    by (apply (Z.mul_le_mono_pos_l _ _ unit HU); ring_le Hxl).
  assert (Hyu' : 100 * 2 ^ 53 * y <= x * (2 ^ 53 + 1) + 50 * 2 ^ 53)
    by (apply (Z.mul_le_mono_pos_l _ _ unit HU); ring_le Hyu).
  assert (Hyl' : x * (2 ^ 53 - 1) <= 100 * 2 ^ 53 * y + 50 * 2 ^ 53)
    by (apply (Z.mul_le_mono_pos_l _ _ unit HU); ring_le Hyl).
  (* everything multiplied by [D], and the first rounding by [T] *)
  assert (H0T : 0 <= T) by lia.
  assert (H0D : 0 <= D) by lia.
  assert (HWu : 2 ^ 53 * (D * (T * pn))
                <= T * num * unit * (2 ^ 53 + 1) + 2 ^ 52 * (D * T))
    by (scale_le T H0T Hpu).
  assert (HWl : T * num * unit * (2 ^ 53 - 1)
                <= 2 ^ 53 * (D * (T * pn)) + 2 ^ 52 * (D * T))
    by (scale_le T H0T Hpl).
  assert (HXu : 2 ^ 53 * (D * x) <= D * (T * pn) * (2 ^ 53 + 1) + 2 ^ 52 * D)
    by (scale_le D H0D Hxu').
  assert (HXl : D * (T * pn) * (2 ^ 53 - 1) <= 2 ^ 53 * (D * x) + 2 ^ 52 * D)
    by (scale_le D H0D Hxl').
  assert (HYu : 100 * 2 ^ 53 * (D * y)
                <= D * x * (2 ^ 53 + 1) + 50 * 2 ^ 53 * D)
    by (scale_le D H0D Hyu').
  assert (HYl : D * x * (2 ^ 53 - 1)
                <= 100 * 2 ^ 53 * (D * y) + 50 * 2 ^ 53 * D)
    by (scale_le D H0D Hyl').
  assert (HTD : 0 <= D * T <= 2 ^ 53 * D).
  { split; [apply Z.mul_nonneg_nonneg; lia|].
    assert (HT' : T <= 2 ^ 53) by lia. scale_le D H0D HT'. }
  assert (HA : 0 <= T * num) by (apply Z.mul_nonneg_nonneg; lia).
  set (A := T * num) in *.
  pose proof (Z.mul_div_le A (100 * D) ltac:(lia)) as HF1.
  pose proof (Z.mul_succ_div_gt A (100 * D) ltac:(lia)) as HF2.
  set (F := A / (100 * D)) in *.
  assert (Hup : 100 * (D * y) < (A + 100 * D) * unit
          /\ (A - 100 * D) * unit <= 100 * (D * y)).
  { set (W := D * (T * pn)) in *. set (X := D * x) in *.
    set (Y := D * y) in *. set (TD := D * T) in *.
    clearbody W X Y TD A. clear - HWu HWl HXu HXl HYu HYl HTD HA Hsmall HD.
    unfold unit in *. split; lia. }
  destruct Hup as [Hup Hlo].
  clearbody F. clearbody A. clearbody y.
  clear - Hup Hlo HF1 HF2 HD HU.
  revert Hup Hlo HU. generalize unit. intros U Hup Hlo HU. split.
  - apply Z.div_le_lower_bound; [exact HU|].
    apply (Z.mul_le_mono_pos_l _ _ (100 * D)); [lia|].
    assert (H1 : (100 * D * F - 100 * D) * U <= (A - 100 * D) * U)
      by (apply Z.mul_le_mono_nonneg_r; lia).
    nia.
  - apply Z.lt_succ_r, Z.div_lt_upper_bound; [exact HU|].
    apply (Z.mul_lt_mono_pos_l (100 * D)); [lia|].
    assert (H1 : (A + 100 * D) * U <= (100 * D * (F + 2)) * U)
      by (apply Z.mul_le_mono_nonneg_r; nia).
    nia.
Qed.

(** X13. The covered count of a record differs by at most one line from the
    exact floor of the decimal percent of the total, as long as the total is
    below [2^53] and the exact value below [2^50]. *)
Theorem covered_within_one_line (run : result completed) (d : coverage) :
  parse_gcov_output run = Ok (Some d) ->
  exists ip fp tot,
    (exists r, run = Ok r
       /\ re_search coverage_re (stdout r +:+ stderr r) = Some [ip; fp; tot])
    /\ total d = int_of_digits tot
    /\ (total d < 2 ^ 53 ->
        total d * int_of_digits (ip +:+ fp)
        < 100 * 10 ^ Z.of_nat (String.length fp) * 2 ^ 50 ->
        total d * int_of_digits (ip +:+ fp)
          / (100 * 10 ^ Z.of_nat (String.length fp)) - 1
        <= covered d
        <= total d * int_of_digits (ip +:+ fp)
             / (100 * 10 ^ Z.of_nat (String.length fp)) + 1).
Proof.
  intros H. pose proof H as Hinv. apply parse_some_inv in Hinv
    as (r & filename & ip & fp & tot & -> & Hf & Hc & Hr).
  destruct (search_coverage_digits _ _ _ _ Hc) as (Hip & Hfp & Htot).
  apply record_of_groups_fields in Hr as (_ & Hp & Ht).
  destruct (parse_some_fields _ _ H) as (HT & _ & Hfl).
  exists ip, fp, tot. split; [eauto|]. split; [exact Ht|].
  intros Hlt Hsmall. rewrite Hp in Hfl. unfold float_of_digits, of_decimal in Hfl.
  apply (floor_percent_accuracy (total d) _ _ _ ltac:(lia)) in Hfl; auto.
  - apply int_of_digits_nonneg. rewrite all_chars_app, Hip, Hfp. reflexivity.
  - apply Z.pow_pos_nonneg; lia.
Qed.

Lemma covered_within_one_line_witness :
  exists ip fp tot,
    (exists r, Ok engine_output = Ok r
       /\ re_search coverage_re (stdout r +:+ stderr r) = Some [ip; fp; tot])
    /\ total engine_record = int_of_digits tot
    /\ (total engine_record < 2 ^ 53 ->
        total engine_record * int_of_digits (ip +:+ fp)
        < 100 * 10 ^ Z.of_nat (String.length fp) * 2 ^ 50 ->
        total engine_record * int_of_digits (ip +:+ fp)
          / (100 * 10 ^ Z.of_nat (String.length fp)) - 1
        <= covered engine_record
        <= total engine_record * int_of_digits (ip +:+ fp)
             / (100 * 10 ^ Z.of_nat (String.length fp)) + 1).
Proof.
  apply (covered_within_one_line (Ok engine_output) engine_record).
  vm_compute. reflexivity.
Defined.

End Accuracy.

(** ** The report as a whole *)

Section Layout.

Lemma parse_all_ext run1 run2 gcda_files :
  (forall f, f ∈ gcda_files -> run1 f = run2 f) ->
  parse_all run1 gcda_files = parse_all run2 gcda_files.
Proof.
  induction gcda_files as [|f l IH]; intros H; [reflexivity|].
  cbn [parse_all]. rewrite (H f) by left.
  rewrite IH by (intros g Hg; apply H; right; exact Hg). reflexivity.
Qed.

(** X14. The report depends on the coverage tool through the artifacts of the
    walk only: two runs over the same tree whose tool answers alike on every
    artifact print the same report, whatever the tool would say of any other
    path. *)
Theorem report_reads_artifacts_only (w1 w2 : world) :
  walk w1 = walk w2 ->
  (forall gcda_file, gcda_file ∈ find_gcda w1 ->
                     gcov w1 gcda_file = gcov w2 gcda_file) ->
  main w1 = main w2.
Proof.
  intros Hwalk Hgcov.
  assert (Hfind : find_gcda w2 = find_gcda w1)
    by (unfold find_gcda; rewrite Hwalk; reflexivity).
  unfold main. rewrite Hfind.
  rewrite (parse_all_ext (gcov w1) (gcov w2) (find_gcda w1) Hgcov).
  reflexivity.
Qed.

Lemma report_reads_artifacts_only_witness :
  main engine_world = main engine_only_world.
Proof.
  apply (report_reads_artifacts_only engine_world engine_only_world).
  - reflexivity.
  - intros gcda_file H.
    assert (E : find_gcda engine_world = ["build/engine.gcda"])
      by (vm_compute; reflexivity).
    rewrite E in H. apply list_elem_of_singleton in H. rewrite H.
    reflexivity.
Defined.

Lemma report_low_coverage_length coverage_data low :
  report_low_coverage coverage_data = (low, Ok tt) ->
  (1 <= length low <= 17)%nat.
Proof.
  rewrite report_low_coverage_lines.
  destruct (low_coverage coverage_data) as [|d l].
  - intros [= <-]. cbn [length]. lia.
  - intros [= <-]. cbn [length]. rewrite length_map, length_take. lia.
Qed.

(** X15. The report is short whatever the number of artifacts: [main] prints
    five times when there is no artifact, seven times when none gives a
    record, and otherwise between 25 and 60 times, since the tables stop at
    eleven categories, ten best files and fifteen files to improve. *)
Theorem report_length_bounded (w : world) :
  (find_gcda w = [] -> length (main w).1 = 5%nat)
  /\ (find_gcda w <> [] -> parse_all (gcov w) (find_gcda w) = Ok [] ->
      length (main w).1 = 7%nat)
  /\ (find_gcda w <> [] -> parse_all (gcov w) (find_gcda w) <> Ok [] ->
      (25 <= length (main w).1 <= 60)%nat)
  /\ (5 <= length (main w).1 <= 60)%nat.
Proof.
  assert (Hfull : find_gcda w <> [] ->
                  parse_all (gcov w) (find_gcda w) <> Ok [] ->
                  (25 <= length (main w).1 <= 60)%nat).
  { intros Hfound Hparsed.
    destruct (parse_all_ok (gcov w) (find_gcda w)) as (data & Hd & Hok).
    assert (Hdata : data <> []) by (intros ->; contradiction).
    destruct (main_full_report w data Hfound Hd Hdata Hok)
      as (overall & rows & low & _ & Hrows & Hlow & ->).
    destruct (report_categories_rows data Hok) as (rows' & Hrows' & Hall).
    rewrite Hrows in Hrows'. injection Hrows' as <-.
    pose proof (Forall2_length _ _ _ Hall) as Hlen.
    pose proof (group_keys_length data) as Hkeys.
    pose proof (report_low_coverage_length data low Hlow) as Hl.
    assert (Hsome : (1 <= length data)%nat)
      by (destruct data; [contradiction|cbn [length]; lia]).
    assert (Hkey : (1 <= length (sorted_keys (group_by_category data)))%nat).
    { destruct data as [|d data']; [contradiction|].
      assert (Hin : category_of (file d)
                    ∈ sorted_keys (group_by_category (d :: data')))
        by (apply group_keys_iff; exists d; split; [left|reflexivity]).
      destruct (sorted_keys (group_by_category (d :: data')));
        [apply elem_of_nil in Hin; contradiction|cbn [length]; lia]. }
    pose proof (Permutation_length (sorted_perm flt percentage true data))
      as Hsorted.
    cbn [fst]. rewrite !length_app, length_map. unfold top_files.
    rewrite length_take. cbn [length banner closing]. lia. }
  split; [|split; [|split; [exact Hfull|]]].
  - intros H. rewrite (main_no_artifacts w H). reflexivity.
  - intros H1 H2. rewrite (main_nothing_parsed w H1 H2). reflexivity.
  - destruct (decide (find_gcda w = [])) as [Ef|Ef].
    + rewrite (main_no_artifacts w Ef). cbn. lia.
    + destruct (parse_all_ok (gcov w) (find_gcda w)) as (data & Hd & _).
      destruct data as [|d data].
      * rewrite (main_nothing_parsed w Ef Hd). cbn. lia.
      * assert (25 <= length (main w).1 <= 60)%nat; [|lia].
        apply Hfull; [exact Ef|rewrite Hd; discriminate].
Qed.

End Layout.
